(** * MondayFootball: team assignment, leaderboard aggregation and game saving

    A shallow embedding of the logic of three React components:
    - [TeamSelector]   (src/components/TeamSelector.tsx): [movePlayerToTeam],
      [removePlayerFromTeam], [randomizeTeams], [clearTeams];
    - [Leaderboard]    (the leaderboard component): the body of
      [loadLeaderboard] after the rows have been fetched;
    - [SaveGameDialog] (src/components/SaveGameDialog.tsx): [handleSave].

    JavaScript numbers that hold counters, sizes and scores are integers and are
    modelled by [Z] or [nat]; the two places where the code divides
    ([totalPlayers / 2] and [wins / gamesPlayed]) are modelled by exact
    rationals [Q] (the doubles involved are exact or order-preserving for every
    roster and history that fits in memory).  A [NaN] is written [None] where
    the code can produce one ([parseInt]). *)

From Stdlib Require Import String Ascii List Bool Arith ZArith QArith Qround.
From Stdlib Require Import Lia Lqa Permutation Sorted.
Import ListNotations.

Local Open Scope Z_scope.

(* ================================================================== *)
(** ** The JavaScript built-ins the components call *)
(* ================================================================== *)

Module JS.

(** [Array.prototype.slice]: a negative bound counts from the end of the
    array, every bound is clamped to [0 .. len], and an empty range gives
    the empty array. *)
Definition relIndex (len k : Z) : Z :=
  if k <? 0 then Z.max (len + k) 0 else Z.min k len.

Definition slice {T : Type} (l : list T) (start final : Z) : list T :=
  let len := Z.of_nat (length l) in
  let k := relIndex len start in
  let e := relIndex len final in
  firstn (Z.to_nat (e - k)) (skipn (Z.to_nat k) l).

(** [Array.prototype.push] on a freshly built array. *)
Definition push {T : Type} (l : list T) (x : T) : list T := l ++ [x].

(** Truthiness of a string: only the empty string is falsy. *)
Definition truthy (s : string) : bool :=
  match s with EmptyString => false | String _ _ => true end.

(** [parseInt(s)] without a radix: leading white space is skipped, a sign
    is read, a [0x] prefix switches to radix 16, and the longest prefix of
    digits is converted.  No digit at all gives [NaN], here [None]. *)
Definition isWhiteSpace (c : ascii) : bool :=
  match nat_of_ascii c with
  | 9%nat | 10%nat | 11%nat | 12%nat | 13%nat | 32%nat => true
  | _ => false
  end.

Fixpoint trimStart (s : string) : string :=
  match s with
  | String c s' => if isWhiteSpace c then trimStart s' else s
  | EmptyString => s
  end.

Definition digitValue (c : ascii) : option Z :=
  let n := Z.of_nat (nat_of_ascii c) in
  if (48 <=? n) && (n <=? 57) then Some (n - 48)
  else if (97 <=? n) && (n <=? 122) then Some (n - 87)
  else if (65 <=? n) && (n <=? 90) then Some (n - 55)
  else None.

Fixpoint digits (radix : Z) (s : string) (acc : option Z) : option Z :=
  match s with
  | String c s' =>
      match digitValue c with
      | Some d =>
          if d <? radix
          then digits radix s'
                 (Some (radix * match acc with Some a => a | None => 0 end + d))
          else acc
      | None => acc
      end
  | EmptyString => acc
  end.

Definition parseInt (s : string) : option Z :=
  let s1 := trimStart s in
  let '(sign, s2) :=
    match s1 with
    | String "-"%char r => (-1, r)
    | String "+"%char r => (1, r)
    | _ => (1, s1)
    end in
  let '(radix, s3) :=
    match s2 with
    | String "0"%char (String "x"%char r) => (16, r)
    | String "0"%char (String "X"%char r) => (16, r)
    | _ => (10, s2)
    end in
  option_map (Z.mul sign) (digits radix s3 None).

(** [Array.prototype.sort(cmp)] for a comparator that is a consistent
    ordering: the result is the stable sort (ECMAScript 2019), [a] stays in
    front of [b] unless [cmp a b > 0].  Insertion from the right computes
    it. *)
Section Sort.
Context {T : Type} (cmp : T -> T -> Q).

Definition after (a b : T) : bool := negb (Qle_bool (cmp a b) 0).

Fixpoint insert (a : T) (l : list T) : list T :=
  match l with
  | [] => [a]
  | b :: l' => if after a b then b :: insert a l' else a :: l
  end.

Definition sort (l : list T) : list T := fold_right insert [] l.

(** The comparator lets [a] stand in front of [b]. *)
Definition mayPrecede (a b : T) : Prop := after a b = false.
End Sort.

(** Own property keys of an ordinary object are enumerated with the array
    indices first, in ascending numeric order, and then the other string
    keys in the order in which the properties were created.  An array index
    is the canonical decimal text of an integer in [0 .. 2^32 - 2]. *)
Definition isDigit (c : ascii) : bool :=
  let n := nat_of_ascii c in ((48 <=? n) && (n <=? 57))%nat.

Fixpoint allDigits (s : string) : bool :=
  match s with
  | EmptyString => true
  | String c s' => isDigit c && allDigits s'
  end.

Fixpoint decimal (s : string) (acc : Z) : Z :=
  match s with
  | EmptyString => acc
  | String c s' => decimal s' (10 * acc + (Z.of_nat (nat_of_ascii c) - 48))
  end.

Definition arrayIndex (s : string) : option Z :=
  match s with
  | EmptyString => None
  | String c s' =>
      if allDigits s
         && (negb (Ascii.eqb c "0"%char) || String.eqb s' EmptyString)
         && (decimal s 0 <? 2 ^ 32 - 1)
      then Some (decimal s 0)
      else None
  end.

Definition isArrayIndex (s : string) : bool :=
  match arrayIndex s with Some _ => true | None => false end.

Definition indexOf (s : string) : Z :=
  match arrayIndex s with Some i => i | None => 0 end.

Section OwnKeys.
Context {V : Type}.

Fixpoint insertIndexed (kv : string * V) (l : list (string * V))
  : list (string * V) :=
  match l with
  | [] => [kv]
  | kv' :: l' =>
      if indexOf (fst kv') <? indexOf (fst kv)
      then kv' :: insertIndexed kv l'
      else kv :: l
  end.

Definition byIndex (a b : string * V) : Prop :=
  indexOf (fst a) <= indexOf (fst b).

(** [Object.entries(o)], for [o] given by its own properties in creation
    order. *)
Definition entries (own : list (string * V)) : list (string * V) :=
  fold_right insertIndexed [] (filter (fun kv => isArrayIndex (fst kv)) own)
  ++ filter (fun kv => negb (isArrayIndex (fst kv))) own.
End OwnKeys.

(** The properties every object literal inherits from [Object.prototype].
    Reading one of these keys on [{}] yields a function (or, for
    [__proto__], the prototype itself): a truthy value that is not an own
    property. *)
Definition objectPrototypeKeys : list string :=
  [ "constructor"; "__defineGetter__"; "__defineSetter__"; "hasOwnProperty";
    "__lookupGetter__"; "__lookupSetter__"; "isPrototypeOf";
    "propertyIsEnumerable"; "toString"; "valueOf"; "__proto__";
    "toLocaleString" ]%string.

Definition inherited (key : string) : bool :=
  existsb (String.eqb key) objectPrototypeKeys.

End JS.

(* ================================================================== *)
(** ** TeamSelector.tsx *)
(* ================================================================== *)

Module TeamSelector.

Record Player := mkPlayer
  { id : string; name : string; isIn : bool; hasPaid : bool }.

Inductive TeamId := idA | idB.

Record Team := mkTeam
  { team_id : TeamId; team_name : string; color : string;
    players : list Player }.

(** The component state [teams : { A: Team; B: Team }]. *)
Record Teams := mkTeams { A : Team; B : Team }.

Definition initialTeams : Teams :=
  {| A := mkTeam idA "Green Team" "team-a" [];
     B := mkTeam idB "Orange Team" "team-b" [] |}.

(** [{ ...t, players: ps }] *)
Definition withPlayers (t : Team) (ps : list Player) : Team :=
  {| team_id := team_id t; team_name := team_name t; color := color t;
     players := ps |}.

(** [p => p.id !== player.id] *)
Definition otherThan (player p : Player) : bool :=
  negb (String.eqb (id p) (id player)).

(** The state updater passed to [setTeams] by [movePlayerToTeam]. *)
Definition movePlayerToTeam (player : Player) (targetTeam : TeamId)
    (prev : Teams) : Teams :=
  let newTeams :=
    {| A := withPlayers (A prev) (filter (otherThan player) (players (A prev)));
       B := withPlayers (B prev) (filter (otherThan player) (players (B prev))) |} in
  match targetTeam with
  | idA => {| A := withPlayers (A newTeams) (JS.push (players (A newTeams)) player);
              B := B newTeams |}
  | idB => {| A := A newTeams;
              B := withPlayers (B newTeams) (JS.push (players (B newTeams)) player) |}
  end.

Definition removePlayerFromTeam (player : Player) (prev : Teams) : Teams :=
  {| A := withPlayers (A prev) (filter (otherThan player) (players (A prev)));
     B := withPlayers (B prev) (filter (otherThan player) (players (B prev))) |}.

Definition clearTeams (teams : Teams) : Teams :=
  {| A := withPlayers (A teams) []; B := withPlayers (B teams) [] |}.

(** The sizes computed by [randomizeTeams] (lines 78-91).  [teamSizeNum] is
    [None] when [parseInt] gave [NaN]; a comparison with [NaN] is false. *)
Definition teamSizes (totalPlayers : Z) (teamSizeNum : option Z) : Z * Z :=
  let teamASize := Qfloor (inject_Z totalPlayers / 2) in
  let teamBSize := totalPlayers - teamASize in
  match teamSizeNum with
  | Some n =>
      if Qle_bool (inject_Z n) (inject_Z totalPlayers / 2) then
        let teamASize := Z.min n totalPlayers in
        let teamBSize := Z.min n (totalPlayers - teamASize) in
        if (teamBSize <? n - 1) && (0 <? totalPlayers - n)
        then (n, totalPlayers - n)
        else (teamASize, teamBSize)
      else (teamASize, teamBSize)
  | None => (teamASize, teamBSize)
  end.

Section Randomize.
(** [[...availablePlayers].sort(() => Math.random() - 0.5)]: whatever the
    random comparator answers, the sort returns a rearrangement of the
    copied array.  The source of randomness is this function. *)
Variable shuffle : list Player -> list Player.

Definition randomizeTeamsNum (availablePlayers : list Player)
    (teamSizeNum : option Z) (teams : Teams) : Teams :=
  let shuffled := shuffle availablePlayers in
  let totalPlayers := Z.of_nat (length availablePlayers) in
  let '(teamASize, teamBSize) := teamSizes totalPlayers teamSizeNum in
  {| A := withPlayers (A teams) (JS.slice shuffled 0 teamASize);
     B := withPlayers (B teams)
            (JS.slice shuffled teamASize (teamASize + teamBSize)) |}.

(** [randomizeTeams], reading the [teamSize] state (a string). *)
Definition randomizeTeams (availablePlayers : list Player)
    (teamSize : string) (teams : Teams) : Teams :=
  randomizeTeamsNum availablePlayers (JS.parseInt teamSize) teams.

(** The operation the specification calls [assignTeams]: the two sides
    produced for an integer target team size. *)
Definition assignTeams (eligiblePlayers : list Player) (targetTeamSize : Z)
  : list Player * list Player :=
  let t := randomizeTeamsNum eligiblePlayers (Some targetTeamSize) initialTeams in
  (players (A t), players (B t)).
End Randomize.

(** The sizing policy in the words of the specification (section 4.1). *)
Definition policySizes (total targetTeamSize : Z) : Z * Z :=
  let sizeA := total / 2 in
  let sizeB := total - sizeA in
  if 2 * targetTeamSize <=? total then
    let sizeA := Z.min targetTeamSize total in
    let sizeB := Z.min targetTeamSize (total - sizeA) in
    if (sizeB <? targetTeamSize - 1) && (total - targetTeamSize >? 0)
    then (targetTeamSize, total - targetTeamSize)
    else (sizeA, sizeB)
  else (sizeA, sizeB).

(** "The first [n] elements" and "the next [m] elements" of a sequence. *)
Definition firstElements {T : Type} (n : Z) (l : list T) : list T :=
  firstn (Z.to_nat n) l.
Definition nextElements {T : Type} (n m : Z) (l : list T) : list T :=
  firstn (Z.to_nat m) (skipn (Z.to_nat n) l).

(** Lines 38-41: [find] returns the player found, an object, or
    [undefined]. *)
Definition onTeam (t : Team) (player : Player) : bool :=
  match find (fun p => String.eqb (id p) (id player)) (players t) with
  | Some _ => true
  | None => false
  end.

(** [teams[t]], and the key of the other team. *)
Definition teamOf (teams : Teams) (t : TeamId) : Team :=
  match t with idA => A teams | idB => B teams end.

Definition opposite (t : TeamId) : TeamId :=
  match t with idA => idB | idB => idA end.

(** Everybody who is on a team, side A first. *)
Definition assigned (teams : Teams) : list Player :=
  players (A teams) ++ players (B teams).

Definition unassignedPlayers (availablePlayers : list Player) (teams : Teams)
  : list Player :=
  filter (fun player => negb (onTeam (A teams) player)
                        && negb (onTeam (B teams) player))
    availablePlayers.

End TeamSelector.


(* ================================================================== *)
(** ** Leaderboard: the aggregation inside [loadLeaderboard] *)
(* ================================================================== *)

Module Leaderboard.

(** A row of [game_log] as selected by [loadLeaderboard].  The score columns
    are nullable [integer]s and [winner] is a nullable text. *)
Record GameLog := mkGameLog
  { green_team_players : list string;
    orange_team_players : list string;
    green_team_score : option Z;
    orange_team_score : option Z;
    winner : option string }.

Record PlayerStats := mkPlayerStats
  { name : string; wins : nat; gamesPlayed : nat; winRate : Q }.

Record TeamStats := mkTeamStats
  { greenWins : nat; orangeWins : nat; draws : nat; totalGames : nat }.

(** A value of [playerWins]: [{ wins, gamesPlayed }]. *)
Record Tally := mkTally { t_wins : nat; t_gamesPlayed : nat }.

(** [playerWins] is an object literal used as a dictionary: its own
    properties, in creation order, on top of [Object.prototype]. *)
Definition Dict := list (string * Tally).

Fixpoint getOwn (o : Dict) (key : string) : option Tally :=
  match o with
  | [] => None
  | (k, v) :: o' => if String.eqb k key then Some v else getOwn o' key
  end.

(** What [playerWins[key]] evaluates to. *)
Inductive Lookup := Own (v : Tally) | Inherited | Undefined.

Definition get (o : Dict) (key : string) : Lookup :=
  match getOwn o key with
  | Some v => Own v
  | None => if JS.inherited key then Inherited else Undefined
  end.

Definition falsy (l : Lookup) : bool :=
  match l with Undefined => true | _ => false end.

(** [playerWins[key] = v] when [key] is not yet an own property: the new
    property is the last one created. *)
Definition create (o : Dict) (key : string) (v : Tally) : Dict := o ++ [(key, v)].

(** [playerWins[key].field++]: the object found under [key] is updated in
    place.  When that object is inherited, no own property of [playerWins]
    changes. *)
Fixpoint update (o : Dict) (key : string) (f : Tally -> Tally) : Dict :=
  match o with
  | [] => []
  | (k, v) :: o' =>
      if String.eqb k key then (k, f v) :: o' else (k, v) :: update o' key f
  end.

Definition incGamesPlayed (v : Tally) : Tally :=
  {| t_wins := t_wins v; t_gamesPlayed := S (t_gamesPlayed v) |}.
Definition incWins (v : Tally) : Tally :=
  {| t_wins := S (t_wins v); t_gamesPlayed := t_gamesPlayed v |}.

(** The body of the two [forEach] callbacks over a roster (lines 255-274);
    [won] is [greenWon] for the green roster and [orangeWon] for the orange
    one. *)
Definition countPlayer (won : bool) (playerWins : Dict) (player : string) : Dict :=
  let playerWins :=
    if falsy (get playerWins player)
    then create playerWins player {| t_wins := 0; t_gamesPlayed := 0 |}
    else playerWins in
  let playerWins := update playerWins player incGamesPlayed in
  if won then update playerWins player incWins else playerWins.

Definition countRoster (won : bool) (playerWins : Dict) (roster : list string) : Dict :=
  fold_left (countPlayer won) roster playerWins.

Record Flags := mkFlags { greenWon : bool; orangeWon : bool; isDraw : bool }.

(** Lines 228-247: [None] is the early [return] of the callback. *)
Definition outcome (game : GameLog) : option Flags :=
  match green_team_score game, orange_team_score game with
  | Some g, Some o =>
      Some {| greenWon := g >? o; orangeWon := o >? g; isDraw := g =? o |}
  | _, _ =>
      match winner game with
      | Some w =>
          if JS.truthy w
          then Some {| greenWon := String.eqb w "green";
                       orangeWon := String.eqb w "orange";
                       isDraw := String.eqb w "draw" |}
          else None
      | None => None
      end
  end.

(** The variables the [forEach] over the rows mutates. *)
Record Acc := mkAcc { playerWins : Dict; teamStats : TeamStats }.

Definition initial : Acc :=
  {| playerWins := [];
     teamStats := {| greenWins := 0; orangeWins := 0; draws := 0; totalGames := 0 |} |}.

Definition bump (b : bool) (n : nat) : nat := if b then S n else n.

Definition processGame (acc : Acc) (game : GameLog) : Acc :=
  match outcome game with
  | None => acc
  | Some fl =>
      let ts := teamStats acc in
      {| playerWins :=
           countRoster (orangeWon fl)
             (countRoster (greenWon fl) (playerWins acc) (green_team_players game))
             (orange_team_players game);
         teamStats :=
           {| greenWins := bump (greenWon fl) (greenWins ts);
              orangeWins := bump (orangeWon fl) (orangeWins ts);
              draws := bump (isDraw fl) (draws ts);
              totalGames := S (totalGames ts) |} |}
  end.

Definition aggregate (data : list GameLog) : Acc := fold_left processGame data initial.

(** Lines 280-286. *)
Definition toPlayerStats (entry : string * Tally) : PlayerStats :=
  let '(name, stats) := entry in
  {| name := name;
     wins := t_wins stats;
     gamesPlayed := t_gamesPlayed stats;
     winRate :=
       if (0 <? t_gamesPlayed stats)%nat
       then (inject_Z (Z.of_nat (t_wins stats))
             / inject_Z (Z.of_nat (t_gamesPlayed stats))) * 100
       else 0 |}.

(** The comparator of lines 287-292. *)
Definition compareStats (a b : PlayerStats) : Q :=
  if negb (wins b =? wins a)%nat
  then inject_Z (Z.of_nat (wins b)) - inject_Z (Z.of_nat (wins a))
  else if negb (Qeq_bool (winRate b) (winRate a))
  then winRate b - winRate a
  else inject_Z (Z.of_nat (gamesPlayed b)) - inject_Z (Z.of_nat (gamesPlayed a)).

Definition sortedLeaderboard (playerWins : Dict) : list PlayerStats :=
  JS.sort compareStats (map toPlayerStats (JS.entries playerWins)).

(** The operation the specification calls [computeLeaderboard]: the values
    handed to [setLeaderboard] and [setTeamStats]. *)
Definition computeLeaderboard (data : list GameLog) : list PlayerStats * TeamStats :=
  let acc := aggregate data in
  (sortedLeaderboard (playerWins acc), teamStats acc).

(** *** The specification's vocabulary *)

Inductive Outcome := sideA | sideB | draw.

(** The values of the winner designator ([green] is side A, [orange] is
    side B). *)
Definition designator (w : string) : option Outcome :=
  if String.eqb w "green" then Some sideA
  else if String.eqb w "orange" then Some sideB
  else if String.eqb w "draw" then Some draw
  else None.

Definition wellFormedWinner (game : GameLog) : Prop :=
  match winner game with
  | Some w => designator w <> None
  | None => True
  end.

(** Section 4.2, the precedence in the specification's words. *)
Definition specOutcome (game : GameLog) : option Outcome :=
  match green_team_score game, orange_team_score game with
  | Some g, Some o =>
      Some (if o <? g then sideA else if g <? o then sideB else draw)
  | _, _ =>
      match winner game with
      | Some w => designator w
      | None => None
      end
  end.

Definition flagsOf (o : Outcome) : Flags :=
  match o with
  | sideA => {| greenWon := true; orangeWon := false; isDraw := false |}
  | sideB => {| greenWon := false; orangeWon := true; isDraw := false |}
  | draw => {| greenWon := false; orangeWon := false; isDraw := true |}
  end.

Definition counted (game : GameLog) : bool :=
  match outcome game with Some _ => true | None => false end.

Definition occurrences (player : string) (roster : list string) : nat :=
  count_occ string_dec roster player.

(** Roster listings of [player] over the counted records, and those on a
    winning side. *)
Definition listings (player : string) (game : GameLog) : nat :=
  match outcome game with
  | Some _ =>
      occurrences player (green_team_players game)
      + occurrences player (orange_team_players game)
  | None => 0
  end.

Definition winningListings (player : string) (game : GameLog) : nat :=
  match outcome game with
  | Some fl =>
      (if greenWon fl then occurrences player (green_team_players game) else 0)
      + (if orangeWon fl then occurrences player (orange_team_players game) else 0)
  | None => 0
  end.

Definition total (f : GameLog -> nat) (data : list GameLog) : nat :=
  fold_right (fun game n => f game + n)%nat 0%nat data.

(** The names in the order in which the scan of the records reaches them:
    for each counted record the green roster, then the orange roster. *)
Definition scanned (data : list GameLog) : list string :=
  flat_map (fun game =>
              if counted game
              then green_team_players game ++ orange_team_players game
              else []) data.

(** Position of the first occurrence of [x] in [l] ([length l] if absent). *)
Fixpoint firstPos (x : string) (l : list string) : nat :=
  match l with
  | [] => 0
  | y :: l' => if String.eqb y x then 0 else S (firstPos x l')
  end.

Definition reachedBefore (data : list GameLog) (a b : string) : Prop :=
  (firstPos a (scanned data) < firstPos b (scanned data))%nat.

(** [a] stands somewhere in front of [b] in [l]. *)
Definition before {T : Type} (l : list T) (a b : T) : Prop :=
  exists l1 l2 l3, l = l1 ++ a :: l2 ++ b :: l3.

(** Two entries tie on the three ranking keys. *)
Definition tie (a b : PlayerStats) : Prop :=
  wins a = wins b /\ winRate a == winRate b /\ gamesPlayed a = gamesPlayed b.

(** [a] may stand in front of [b] in a ranking that is descending by wins,
    then win rate, then games played. *)
Definition rankedBefore (a b : PlayerStats) : Prop :=
  (wins b < wins a)%nat
  \/ (wins a = wins b /\ (winRate b < winRate a)%Q)
  \/ (wins a = wins b /\ winRate a == winRate b /\ (gamesPlayed b <= gamesPlayed a)%nat).

(** The specification's reading of the win rate (section 3 and glossary):
    wins divided by games, a number in [0, 1]. *)
Definition winRateAsStated (e : PlayerStats) : Prop :=
  ((0 < gamesPlayed e)%nat ->
   winRate e == inject_Z (Z.of_nat (wins e)) / inject_Z (Z.of_nat (gamesPlayed e)))
  /\ ((gamesPlayed e = 0)%nat -> winRate e == 0)
  /\ (0 <= winRate e)%Q /\ (winRate e <= 1)%Q.

(** What the code stores: the same quotient as a percentage. *)
Definition winRatePercent (e : PlayerStats) : Prop :=
  winRate e
  = (if (0 <? gamesPlayed e)%nat
     then (inject_Z (Z.of_nat (wins e)) / inject_Z (Z.of_nat (gamesPlayed e))) * 100
     else 0)%Q
  /\ (0 <= winRate e)%Q /\ (winRate e <= 100)%Q.

(** *** Auxiliary notions for the proofs *)

Definition keys (o : Dict) : list string := map fst o.

(** The effect of one roster listing on the own keys of [playerWins]. *)
Definition addKey (ks : list string) (player : string) : list string :=
  if JS.inherited player || existsb (String.eqb player) ks
  then ks else ks ++ [player].

(** The effect of one roster listing on the tally of the listed player. *)
Definition step (won : bool) (v : Tally) : Tally :=
  {| t_wins := bump won (t_wins v); t_gamesPlayed := S (t_gamesPlayed v) |}.

Definition gamesOf (o : Dict) (player : string) : nat :=
  match getOwn o player with Some v => t_gamesPlayed v | None => 0%nat end.

Definition winsOf (o : Dict) (player : string) : nat :=
  match getOwn o player with Some v => t_wins v | None => 0%nat end.

Definition goodTally (v : Tally) : Prop :=
  (1 <= t_gamesPlayed v)%nat /\ (t_wins v <= t_gamesPlayed v)%nat.

(** Counted records for which the flag [f] is set. *)
Definition flagged (f : Flags -> bool) (game : GameLog) : nat :=
  match outcome game with
  | Some fl => if f fl then 1%nat else 0%nat
  | None => 0%nat
  end.

Definition countedOnce (game : GameLog) : nat :=
  if counted game then 1%nat else 0%nat.

(** *** The team win ratio bar (lines 329-330 and 366-404) *)

Definition greenPercent (ts : TeamStats) : Q :=
  if (0 <? totalGames ts)%nat
  then (inject_Z (Z.of_nat (greenWins ts)) / inject_Z (Z.of_nat (totalGames ts))) * 100
  else 0.

Definition orangePercent (ts : TeamStats) : Q :=
  if (0 <? totalGames ts)%nat
  then (inject_Z (Z.of_nat (orangeWins ts)) / inject_Z (Z.of_nat (totalGames ts))) * 100
  else 0.

(** [(teamStats.draws / teamStats.totalGames) * 100], computed without a
    test of [totalGames]: with no game the quotient is not a finite number,
    here [None]. *)
Definition drawPercent (ts : TeamStats) : option Q :=
  if (totalGames ts =? 0)%nat then None
  else Some ((inject_Z (Z.of_nat (draws ts))
              / inject_Z (Z.of_nat (totalGames ts))) * 100)%Q.

(** The widths (in percent) of the segments the bar renders, left to
    right: green when [greenPercent > 0], orange when [orangePercent > 0],
    draws when [draws > 0]. *)
Definition barWidths (ts : TeamStats) : list (option Q) :=
  (if Qle_bool (greenPercent ts) 0 then [] else [Some (greenPercent ts)])
  ++ (if Qle_bool (orangePercent ts) 0 then [] else [Some (orangePercent ts)])
  ++ (if (0 <? draws ts)%nat then [drawPercent ts] else []).

(** [n] out of [d], in percent. *)
Definition percentage (n d : nat) : Q :=
  (inject_Z (Z.of_nat n) / inject_Z (Z.of_nat d)) * 100.


End Leaderboard.

(* ================================================================== *)
(** ** SaveGameDialog.tsx *)
(* ================================================================== *)

Module SaveGameDialog.

Record Player := mkPlayer { id : string; name : string; hasPaid : bool }.

Record Props := mkProps
  { greenTeam : list Player; orangeTeam : list Player;
    attendingPlayers : list Player }.

Inductive PaymentType := everyone_pays | loser_pays.
Inductive Winner := green | orange | draw.

(** The state of the dialog.  [weekDate] stands for the text
    [format(weekDate, 'yyyy-MM-dd')]. *)
Record State := mkState
  { weekDate : string;
    greenScore : string;
    orangeScore : string;
    paymentType : PaymentType;
    scoreUnknown : bool;
    winner : Winner }.

(** A JavaScript number as [parseInt] returns it. *)
Inductive Num := NaN | Int (z : Z).

Definition parseInt (s : string) : Num :=
  match JS.parseInt s with Some z => Int z | None => NaN end.

(** The object passed to [insert].  A score is [null] ([None]) or a number;
    [winner] is [undefined] ([None]) or one of the three designators. *)
Record Insert := mkInsert
  { week_date : string;
    green_team_players : list string;
    orange_team_players : list string;
    green_team_score : option Num;
    orange_team_score : option Num;
    attending_players : list string;
    paid_players : list string;
    payment_type : PaymentType;
    ins_winner : option Winner }.

(** [handleSave] up to the [insert] call; [None] is the early [return] after
    an error toast. *)
Definition handleSave (props : Props) (st : State) : option Insert :=
  if negb (scoreUnknown st)
     && (negb (JS.truthy (greenScore st)) || negb (JS.truthy (orangeScore st)))
  then None
  else if (List.length (greenTeam props) =? 0)%nat
          || (List.length (orangeTeam props) =? 0)%nat
  then None
  else
    Some {| week_date := weekDate st;
            green_team_players := map name (greenTeam props);
            orange_team_players := map name (orangeTeam props);
            green_team_score :=
              if scoreUnknown st then None else Some (parseInt (greenScore st));
            orange_team_score :=
              if scoreUnknown st then None else Some (parseInt (orangeScore st));
            attending_players := map name (attendingPlayers props);
            paid_players := map name (filter hasPaid (attendingPlayers props));
            payment_type := paymentType st;
            ins_winner := if scoreUnknown st then Some (winner st) else None |}.

(** The row of [game_log] that the insert produces, as [loadLeaderboard]
    reads it back.  The request body is JSON: a number that is [NaN] is
    written as [null], and a property that is [undefined] is left out, so
    its nullable column stays [NULL]. *)
Definition jsonNumber (v : option Num) : option Z :=
  match v with
  | Some (Int z) => Some z
  | Some NaN | None => None
  end.

Definition winnerText (w : Winner) : string :=
  match w with green => "green" | orange => "orange" | draw => "draw" end.

Definition storedRow (r : Insert) : Leaderboard.GameLog :=
  {| Leaderboard.green_team_players := green_team_players r;
     Leaderboard.orange_team_players := orange_team_players r;
     Leaderboard.green_team_score := jsonNumber (green_team_score r);
     Leaderboard.orange_team_score := jsonNumber (orange_team_score r);
     Leaderboard.winner := option_map winnerText (ins_winner r) |}.

(** The text of a score field holds an integer for [parseInt]. *)
Definition parses (s : string) : Prop := JS.parseInt s <> None.

End SaveGameDialog.

(* ================================================================== *)
(** ** GameHistory: the result shown for a past game *)
(* ================================================================== *)

Module GameHistory.

(** A row of [game_log] as [loadGames] reads it (the columns the component
    uses). *)
Record GameLog := mkGameLog
  { id : string;
    week_date : string;
    green_team_players : list string;
    orange_team_players : list string;
    green_team_score : option Z;
    orange_team_score : option Z;
    attending_players : list string;
    paid_players : list string;
    payment_type : option string }.

(** Lines 73-78 of the component. *)
Definition greenWon (game : GameLog) : bool :=
  match green_team_score game, orange_team_score game with
  | Some g, Some o => g >? o
  | _, _ => false
  end.

Definition orangeWon (game : GameLog) : bool :=
  match green_team_score game, orange_team_score game with
  | Some g, Some o => o >? g
  | _, _ => false
  end.

Definition isTie (game : GameLog) : bool :=
  match green_team_score game, orange_team_score game with
  | Some g, Some o => g =? o
  | _, _ => false
  end.

(** [game.paid_players.includes(player)]: the "Paid" badge of a listed
    player. *)
Definition paidBadge (game : GameLog) (player : string) : bool :=
  existsb (String.eqb player) (paid_players game).

End GameHistory.

(* ================================================================== *)
(** ** usePlayers.ts: the roster held by the hook *)
(* ================================================================== *)

Module UsePlayers.

(** The hook's [Player] interface has the fields of the one in
    [PlayerManager], which [TeamSelector] imports. *)
Definition Player := TeamSelector.Player.

(** A row of the [players] table (the columns the hook reads). *)
Record Row := mkRow
  { row_id : string; row_name : string; is_in : bool; has_paid : bool }.

(** [{ id: p.id, name: p.name, isIn: p.is_in, hasPaid: p.has_paid }] *)
Definition format (p : Row) : Player :=
  TeamSelector.mkPlayer (row_id p) (row_name p) (is_in p) (has_paid p).

(** [Partial<Player>]: [None] is a key that is not present. *)
Record Updates := mkUpdates
  { u_id : option string; u_name : option string;
    u_isIn : option bool; u_hasPaid : option bool }.

Definition noUpdates : Updates := mkUpdates None None None None.

Definition orElse {T : Type} (o : option T) (d : T) : T :=
  match o with Some x => x | None => d end.

(** [{ ...p, ...updates }] *)
Definition merge (p : Player) (updates : Updates) : Player :=
  TeamSelector.mkPlayer
    (orElse (u_id updates) (TeamSelector.id p))
    (orElse (u_name updates) (TeamSelector.name p))
    (orElse (u_isIn updates) (TeamSelector.isIn p))
    (orElse (u_hasPaid updates) (TeamSelector.hasPaid p)).

(** Each operation is given what the service answered.  When there is no
    session or the request fails, the operation reports the error and leaves
    [players] as it was. *)

(** [loadPlayers]: [response] is [None] on an error, else the rows ([data]
    may be [null], read as no row). *)
Definition loadPlayers (response : option (option (list Row)))
    (prev : list Player) : list Player :=
  match response with
  | Some data => map format (orElse data [])
  | None => prev
  end.

(** [addPlayer]: [inserted] is the row the insert returned. *)
Definition addPlayer (inserted : option Row) (prev : list Player) : list Player :=
  match inserted with
  | Some data => prev ++ [format data]
  | None => prev
  end.

Definition removePlayer (ok : bool) (id : string) (prev : list Player)
  : list Player :=
  if ok
  then filter (fun p => negb (String.eqb (TeamSelector.id p) id)) prev
  else prev.

Definition updatePlayer (ok : bool) (id : string) (updates : Updates)
    (prev : list Player) : list Player :=
  if ok
  then map (fun p => if String.eqb (TeamSelector.id p) id
                     then merge p updates else p) prev
  else prev.

Definition clearAllSelections (ok : bool) (prev : list Player) : list Player :=
  if ok
  then map (fun p => TeamSelector.mkPlayer (TeamSelector.id p)
                       (TeamSelector.name p) false false) prev
  else prev.




End UsePlayers.

(* ================================================================== *)
(** ** PlayerManager: the switches of a player *)
(* ================================================================== *)

Module PlayerManager.

Inductive Field := isIn | hasPaid.

(** [togglePlayerStatus]: the call made to [onUpdatePlayer], if any. *)
Definition togglePlayerStatus (isAdmin : bool) (players : list UsePlayers.Player)
    (id : string) (field : Field) : option (string * UsePlayers.Updates) :=
  if negb isAdmin then None
  else
    match find (fun p => String.eqb (TeamSelector.id p) id) players with
    | Some player =>
        Some (id,
              match field with
              | isIn =>
                  UsePlayers.mkUpdates None None
                    (Some (negb (TeamSelector.isIn player))) None
              | hasPaid =>
                  UsePlayers.mkUpdates None None None
                    (Some (negb (TeamSelector.hasPaid player)))
              end)
    | None => None
    end.

(** Lines 544-545. *)
Definition attendingPlayers (players : list UsePlayers.Player) :=
  filter TeamSelector.isIn players.
Definition paidPlayers (players : list UsePlayers.Player) :=
  filter TeamSelector.hasPaid (attendingPlayers players).

(** Lines 538-542: the list as displayed.  [localeCompare] is the
    collation of the browser's locale, taken as given. *)
Section Sorted.
Variable localeCompare : string -> string -> Z.

Definition comparePlayers (a b : UsePlayers.Player) : Q :=
  if TeamSelector.isIn a && negb (TeamSelector.isIn b) then -1
  else if negb (TeamSelector.isIn a) && TeamSelector.isIn b then 1
  else inject_Z (localeCompare (TeamSelector.name a) (TeamSelector.name b)).

Definition sortedPlayers (players : list UsePlayers.Player)
  : list UsePlayers.Player :=
  JS.sort comparePlayers players.
End Sorted.

(** A collation is consistent when it orders the names. *)
Definition consistent (localeCompare : string -> string -> Z) : Prop :=
  (forall a b, 0 < localeCompare a b -> localeCompare b a <= 0)
  /\ (forall a b c, localeCompare a b <= 0 -> localeCompare b c <= 0 ->
                    localeCompare a c <= 0).

(** A click on a switch, with [onUpdatePlayer] wired to the hook's
    [updatePlayer] as [Index] does; [ok] tells whether the update request
    succeeded. *)
Definition clickSwitch (isAdmin ok : bool) (id : string) (field : Field)
    (players : list UsePlayers.Player) : list UsePlayers.Player :=
  match togglePlayerStatus isAdmin players id field with
  | Some (i, updates) => UsePlayers.updatePlayer ok i updates players
  | None => players
  end.

End PlayerManager.

(* ================================================================== *)
(** ** Index.tsx: the lists derived from the roster *)
(* ================================================================== *)

Module Index.

Definition attendingPlayers (players : list UsePlayers.Player) :=
  filter TeamSelector.isIn players.
Definition paidPlayers (players : list UsePlayers.Player) :=
  filter TeamSelector.hasPaid (attendingPlayers players).
Definition unpaidPlayers (players : list UsePlayers.Player) :=
  filter (fun player => negb (TeamSelector.hasPaid player))
    (attendingPlayers players).

End Index.

(* ================================================================== *)
(** ** useCurrentTeams: the shared team assignment *)
(* ================================================================== *)

Module UseCurrentTeams.

Record CurrentTeams := mkCurrentTeams
  { teamA : list UsePlayers.Player;
    teamB : list UsePlayers.Player;
    teamSize : Z }.

Definition initialTeams : CurrentTeams := mkCurrentTeams [] [] 7.

(** The row of [current_teams] (the columns the hook reads and writes). *)
Record Row := mkRow
  { team_a_player_ids : list string;
    team_b_player_ids : list string;
    team_size : Z }.

(** [ids.includes(p.id)] *)
Definition includes (ids : list string) (x : string) : bool :=
  existsb (String.eqb x) ids.

(** [loadTeams]: [response] is [None] on an error and [Some None] when the
    table has no row; in both cases the state is kept. *)
Definition loadTeams (allPlayers : list UsePlayers.Player)
    (response : option (option Row)) (prev : CurrentTeams) : CurrentTeams :=
  match response with
  | Some (Some data) =>
      {| teamA := filter (fun p => includes (team_a_player_ids data)
                                     (TeamSelector.id p)) allPlayers;
         teamB := filter (fun p => includes (team_b_player_ids data)
                                     (TeamSelector.id p)) allPlayers;
         teamSize := team_size data |}
  | _ => prev
  end.

(** [saveTeams]: the state set at once, and the row written. *)
Definition savedState (newA newB : list UsePlayers.Player) (teamSize : Z)
  : CurrentTeams :=
  {| teamA := newA; teamB := newB; teamSize := teamSize |}.

Definition teamData (newA newB : list UsePlayers.Player) (teamSize : Z) : Row :=
  {| team_a_player_ids := map TeamSelector.id newA;
     team_b_player_ids := map TeamSelector.id newB;
     team_size := teamSize |}.

(** The table holds at most one row: [saveTeams] updates the row it finds and
    inserts one only when there is none.  [written] tells whether the user is
    signed in and the write was accepted. *)
Definition saveTeams (written : bool) (newA newB : list UsePlayers.Player)
    (teamSize : Z) (table : option Row) : CurrentTeams * option Row :=
  (savedState newA newB teamSize,
   if written then Some (teamData newA newB teamSize) else table).

(** [clearTeams]: the row, if any, keeps its [team_size]; on an error the
    state is kept. *)
Definition clearTeams (ok : bool) (prev : CurrentTeams) (table : option Row)
  : CurrentTeams * option Row :=
  if ok
  then ({| teamA := []; teamB := []; teamSize := teamSize prev |},
        match table with
        | Some r => Some {| team_a_player_ids := []; team_b_player_ids := [];
                            team_size := team_size r |}
        | None => None
        end)
  else (prev, table).

End UseCurrentTeams.


(* ================================================================== *)
(** ** Sample data used by the examples *)
(* ================================================================== *)

Module Samples.

Definition alice := TeamSelector.mkPlayer "p1" "Alice" true true.
Definition bob := TeamSelector.mkPlayer "p2" "Bob" true false.
Definition carol := TeamSelector.mkPlayer "p3" "Carol" true true.

(** The record of the specification's example (section 8). *)
Definition specExample : Leaderboard.GameLog :=
  Leaderboard.mkGameLog ["Alice"; "Bob"]%string ["Carol"]%string
    (Some 3) (Some 1) None.

(** A record without scores, decided by its winner designator. *)
Definition drawnGame : Leaderboard.GameLog :=
  Leaderboard.mkGameLog ["Alice"]%string ["Carol"]%string
    None None (Some "draw"%string).

(** A record with neither scores nor a winner. *)
Definition emptyGame : Leaderboard.GameLog :=
  Leaderboard.mkGameLog ["Alice"]%string ["Carol"]%string None None None.

(** Two winners whose names are numerals, listed as "2" and then "1". *)
Definition numeralGame : Leaderboard.GameLog :=
  Leaderboard.mkGameLog ["2"; "1"]%string ["Carol"]%string
    (Some 1) (Some 0) None.

(** A winner whose name is a property of [Object.prototype]. *)
Definition constructorGame : Leaderboard.GameLog :=
  Leaderboard.mkGameLog ["constructor"; "Alice"]%string ["Carol"]%string
    (Some 3) (Some 1) None.

(** A record whose winner is neither green, orange nor draw. *)
Definition oddWinnerGame : Leaderboard.GameLog :=
  Leaderboard.mkGameLog ["Alice"]%string ["Carol"]%string
    None None (Some "blue"%string).

Definition entry (n : string) (w g : nat) (r : Q) : Leaderboard.PlayerStats :=
  Leaderboard.mkPlayerStats n w g r.

(** A dialog with both teams selected and the scores ".5" and "2" typed
    into the two number fields. *)
Definition dialogProps : SaveGameDialog.Props :=
  {| SaveGameDialog.greenTeam := [SaveGameDialog.mkPlayer "p1" "Alice" true];
     SaveGameDialog.orangeTeam := [SaveGameDialog.mkPlayer "p3" "Carol" false];
     SaveGameDialog.attendingPlayers :=
       [SaveGameDialog.mkPlayer "p1" "Alice" true;
        SaveGameDialog.mkPlayer "p3" "Carol" false] |}.

Definition fractionTyped : SaveGameDialog.State :=
  {| SaveGameDialog.weekDate := "2025-11-24";
     SaveGameDialog.greenScore := ".5";
     SaveGameDialog.orangeScore := "2";
     SaveGameDialog.paymentType := SaveGameDialog.everyone_pays;
     SaveGameDialog.scoreUnknown := false;
     SaveGameDialog.winner := SaveGameDialog.green |}.

Definition scoresTyped : SaveGameDialog.State :=
  {| SaveGameDialog.weekDate := "2025-11-24";
     SaveGameDialog.greenScore := "3";
     SaveGameDialog.orangeScore := "1";
     SaveGameDialog.paymentType := SaveGameDialog.everyone_pays;
     SaveGameDialog.scoreUnknown := false;
     SaveGameDialog.winner := SaveGameDialog.green |}.

Definition winnerOnly : SaveGameDialog.State :=
  {| SaveGameDialog.weekDate := "2025-11-24";
     SaveGameDialog.greenScore := "";
     SaveGameDialog.orangeScore := "";
     SaveGameDialog.paymentType := SaveGameDialog.loser_pays;
     SaveGameDialog.scoreUnknown := true;
     SaveGameDialog.winner := SaveGameDialog.draw |}.

(** A past game as [GameHistory] reads it, saved with the winner only, and
    the same row as [Leaderboard] reads it. *)
Definition historyRow : GameHistory.GameLog :=
  GameHistory.mkGameLog "g1" "2025-11-24" ["Alice"]%string ["Carol"]%string
    None None ["Alice"; "Carol"]%string ["Alice"]%string
    (Some "everyone_pays"%string).

Definition leaderboardRow : Leaderboard.GameLog :=
  Leaderboard.mkGameLog ["Alice"]%string ["Carol"]%string
    None None (Some "green"%string).

Definition roster : list UsePlayers.Player := [alice; bob; carol].

Definition daveRow : UsePlayers.Row := UsePlayers.mkRow "p4" "Dave" false false.

(** A collation that compares the lengths of the names. *)
Definition byLength (a b : string) : Z :=
  Z.of_nat (String.length a) - Z.of_nat (String.length b).

Definition dave := TeamSelector.mkPlayer "p4" "Dave" false false.

End Samples.

(* ================================================================== *)
(** ** Facts about the built-ins *)
(* ================================================================== *)

Module JSFacts.
Import JS.

Lemma relIndex_bounds (len k : Z) : 0 <= len -> 0 <= relIndex len k <= len.
Proof. unfold relIndex. destruct (Z.ltb_spec k 0); lia. Qed.

Lemma relIndex_nonneg (len k : Z) : 0 <= k -> relIndex len k = Z.min k len.
Proof. unfold relIndex. destruct (Z.ltb_spec k 0); lia. Qed.

Lemma relIndex_neg (len k : Z) : k < 0 -> relIndex len k = Z.max (len + k) 0.
Proof. unfold relIndex. destruct (Z.ltb_spec k 0); lia. Qed.

Section Lists.
Context {T : Type}.
Implicit Types l : list T.

Lemma firstn_clamp l (n m : nat) :
  (length l <= n)%nat -> (length l <= m)%nat -> firstn n l = firstn m l.
Proof. intros Hn Hm. rewrite !firstn_all2 by assumption. reflexivity. Qed.

Lemma firstn_plus l (n m : nat) :
  firstn (n + m) l = firstn n l ++ firstn m (skipn n l).
Proof.
  revert l; induction n as [|n IH]; intros l; simpl.
  - reflexivity.
  - destruct l as [|x l]; simpl.
    + now rewrite firstn_nil.
    + now rewrite IH.
Qed.

Lemma In_firstn l (n : nat) x : In x (firstn n l) -> In x l.
Proof. intros H. rewrite <- (firstn_skipn n l). apply in_or_app. now left. Qed.

Lemma In_skipn l (n : nat) x : In x (skipn n l) -> In x l.
Proof. intros H. rewrite <- (firstn_skipn n l). apply in_or_app. now right. Qed.

(** A slice that starts at [0] is a prefix. *)
Lemma slice_from_0 l (a : Z) :
  slice l 0 a = firstn (Z.to_nat (relIndex (Z.of_nat (length l)) a)) l.
Proof.
  unfold slice. rewrite (relIndex_nonneg _ 0) by lia.
  replace (Z.min 0 (Z.of_nat (length l))) with 0 by lia.
  now rewrite Z.sub_0_r.
Qed.

(** With bounds that are not negative a slice is "skip, then take". *)
Lemma slice_prefix l (a : Z) : 0 <= a -> slice l 0 a = firstn (Z.to_nat a) l.
Proof.
  intros Ha. rewrite slice_from_0, relIndex_nonneg by assumption.
  destruct (Z.le_ge_cases a (Z.of_nat (length l))).
  - now rewrite Z.min_l.
  - rewrite Z.min_r by assumption. apply firstn_clamp; lia.
Qed.

Lemma slice_next l (a b : Z) :
  0 <= a -> 0 <= b ->
  slice l a (a + b) = firstn (Z.to_nat b) (skipn (Z.to_nat a) l).
Proof.
  intros Ha Hb. unfold slice. rewrite !relIndex_nonneg by lia.
  set (len := Z.of_nat (length l)).
  destruct (Z.le_gt_cases len a) as [Hge | Hlt].
  - rewrite (Z.min_r a) by assumption.
    rewrite !(skipn_all2 l) by (subst len; lia).
    now rewrite !firstn_nil.
  - rewrite (Z.min_l a) by lia.
    destruct (Z.le_ge_cases (a + b) len) as [Hin | Hout].
    + rewrite Z.min_l by assumption. f_equal. lia.
    + rewrite Z.min_r by assumption.
      apply firstn_clamp; rewrite length_skipn; subst len; lia.
Qed.

(** The two slices taken by [randomizeTeams] are consecutive pieces of one
    prefix, whatever the two sizes are. *)
Lemma slices_prefix l (a b : Z) :
  exists n m : nat,
    slice l 0 a = firstn n l /\ slice l a (a + b) = firstn m (skipn n l).
Proof.
  exists (Z.to_nat (relIndex (Z.of_nat (length l)) a)).
  exists (Z.to_nat (relIndex (Z.of_nat (length l)) (a + b)
                    - relIndex (Z.of_nat (length l)) a)).
  split; [apply slice_from_0 | reflexivity].
Qed.

(** A slice with a negative end drops that many elements from the end. *)
Lemma slice_drop_last l (a : Z) :
  a < 0 -> slice l 0 a = firstn (Z.to_nat (Z.of_nat (length l) + a)) l.
Proof.
  intros Ha. rewrite slice_from_0, relIndex_neg by assumption.
  f_equal. lia.
Qed.

Lemma slice_empty_range l (a : Z) : a <= 0 -> slice l a (a + a) = [].
Proof.
  intros Ha. unfold slice.
  assert (0 <= Z.of_nat (length l)) by lia.
  replace (Z.to_nat (relIndex (Z.of_nat (length l)) (a + a)
                     - relIndex (Z.of_nat (length l)) a)) with 0%nat.
  - reflexivity.
  - unfold relIndex.
    destruct (Z.ltb_spec (a + a) 0), (Z.ltb_spec a 0); lia.
Qed.

Lemma NoDup_firstn l (n : nat) : NoDup l -> NoDup (firstn n l).
Proof.
  intros H. rewrite <- (firstn_skipn n l) in H.
  now apply NoDup_app_remove_r in H.
Qed.

End Lists.
End JSFacts.

(* ================================================================== *)
(** ** TeamSelector: sizes, slices and manual moves *)
(* ================================================================== *)

Module TeamSelectorFacts.
Import JS JSFacts TeamSelector Samples.

Lemma half_floor (total : Z) : Qfloor (inject_Z total / 2) = total / 2.
Proof.
  unfold Qdiv, Qmult, Qinv, inject_Z, Qfloor; simpl.
  now rewrite Z.mul_1_r.
Qed.

Lemma le_half (n total : Z) :
  Qle_bool (inject_Z n) (inject_Z total / 2) = (2 * n <=? total).
Proof.
  unfold Qdiv, Qmult, Qinv, inject_Z, Qle_bool; cbn [Qnum Qden].
  change (Z.pos (1 * 2)) with 2.
  apply Bool.eq_true_iff_eq. rewrite !Z.leb_le. lia.
Qed.

(** The sizes the code computes are the sizes of the stated policy, for
    every integer target size. *)
Lemma teamSizes_policy (total n : Z) :
  teamSizes total (Some n) = policySizes total n.
Proof.
  unfold teamSizes, policySizes.
  rewrite half_floor, le_half.
  destruct (2 * n <=? total); [|reflexivity].
  replace (0 <? total - n) with (total - n >? 0); [reflexivity|].
  rewrite Z.gtb_ltb. reflexivity.
Qed.

(** When the requested size fits twice, both sides get exactly that size:
    the redistribution of lines 87-90 never fires. *)
Lemma policySizes_closed (total n : Z) :
  0 <= total ->
  policySizes total n =
  if 2 * n <=? total then (n, n) else (total / 2, total - total / 2).
Proof.
  intros Ht. unfold policySizes.
  destruct (Z.leb_spec (2 * n) total) as [H|H]; [|reflexivity].
  rewrite (Z.min_l n total) by lia.
  rewrite (Z.min_l n (total - n)) by lia.
  replace (n <? n - 1) with false; [reflexivity|].
  symmetry. apply Z.ltb_ge. lia.
Qed.

Lemma policySizes_nonneg (total n : Z) :
  0 <= total -> 0 <= n ->
  0 <= fst (policySizes total n) /\ 0 <= snd (policySizes total n).
Proof.
  intros Ht Hn. rewrite policySizes_closed by assumption.
  destruct (Z.leb_spec (2 * n) total); simpl.
  - lia.
  - pose proof (Z.div_pos total 2 Ht ltac:(lia)).
    assert (total / 2 <= total) by (apply Z.div_le_upper_bound; lia).
    lia.
Qed.

Lemma assignTeams_slices shuffle eligible (n : Z) :
  assignTeams shuffle eligible n =
  let total := Z.of_nat (length eligible) in
  let sizes := policySizes total n in
  (slice (shuffle eligible) 0 (fst sizes),
   slice (shuffle eligible) (fst sizes) (fst sizes + snd sizes)).
Proof.
  unfold assignTeams, randomizeTeamsNum.
  rewrite teamSizes_policy.
  destruct (policySizes _ n) as [a b]. reflexivity.
Qed.

(** The two examples of the specification (section 8), and an odd pool. *)
Example sizes_14_7 : teamSizes 14 (Some 7) = (7, 7).
Proof. reflexivity. Qed.

Example sizes_10_7 : teamSizes 10 (Some 7) = (5, 5).
Proof. reflexivity. Qed.

Example sizes_15_7 : teamSizes 15 (Some 7) = (7, 7).
Proof. reflexivity. Qed.

Example sizes_11_7 : teamSizes 11 (Some 7) = (5, 6).
Proof. reflexivity. Qed.

Example randomize_default_size :
  let t := randomizeTeams (@rev Player) [alice; bob; carol] "7" initialTeams in
  (players (A t), players (B t)) = ([carol], [bob; alice]).
Proof. reflexivity. Qed.

Lemma otherThan_self (p : Player) : otherThan p p = false.
Proof. unfold otherThan. now rewrite String.eqb_refl. Qed.

Lemma filter_idem {T} (f : T -> bool) (l : list T) :
  filter f (filter f l) = filter f l.
Proof.
  induction l as [|x l IH]; simpl; [reflexivity|].
  destruct (f x) eqn:E; simpl; [rewrite E|]; now rewrite IH.
Qed.

Lemma filter_push_removed (p : Player) (l : list Player) :
  filter (otherThan p) (push (filter (otherThan p) l) p) = filter (otherThan p) l.
Proof.
  unfold push. rewrite filter_app, filter_idem. simpl.
  rewrite otherThan_self. apply app_nil_r.
Qed.

Lemma shuffle_nil (shuffle : list Player -> list Player) :
  (forall l, Permutation l (shuffle l)) -> shuffle [] = [].
Proof. intros H. now apply Permutation_nil. Qed.

Lemma shuffle_length (shuffle : list Player -> list Player) l :
  (forall l, Permutation l (shuffle l)) -> length (shuffle l) = length l.
Proof. intros H. symmetry. now apply Permutation_length. Qed.

(** C8. [movePlayerToTeam] is idempotent: moving the same player to the same
    side a second time leaves both sides, members and order, as the first
    move left them. *)
Theorem movePlayerToTeam_idempotent (player : Player) (targetTeam : TeamId)
    (prev : Teams) :
  movePlayerToTeam player targetTeam (movePlayerToTeam player targetTeam prev)
  = movePlayerToTeam player targetTeam prev.
Proof.
  destruct targetTeam; unfold movePlayerToTeam, withPlayers; simpl;
    rewrite filter_push_removed, filter_idem; reflexivity.
Qed.

(** C1, as stated, fails for a negative target size: with two players and
    target [-1] the policy gives the sizes [(-1, -1)], yet side A is not "the
    first [-1] elements" (no elements) but the list without its last
    element. *)
Lemma assignTeams_negative_size_not_prefix :
  assignTeams (fun l => l) [alice; bob] (-1)
  <> (firstElements (fst (policySizes 2 (-1))) [alice; bob],
      nextElements (fst (policySizes 2 (-1))) (snd (policySizes 2 (-1)))
        [alice; bob]).
Proof. vm_compute. discriminate. Qed.

(** C1 (amended). For every eligible list and every integer target size the
    two sizes are those of the stated policy, and for every target size that
    is not negative the sides are the first [sizeA] and the next [sizeB]
    elements of the shuffled list. *)
Theorem assignTeams_policy (shuffle : list Player -> list Player)
    (eligible : list Player) (targetTeamSize : Z) :
  let total := Z.of_nat (length eligible) in
  let sizeA := fst (policySizes total targetTeamSize) in
  let sizeB := snd (policySizes total targetTeamSize) in
  teamSizes total (Some targetTeamSize) = (sizeA, sizeB)
  /\ (0 <= targetTeamSize ->
      assignTeams shuffle eligible targetTeamSize
      = (firstElements sizeA (shuffle eligible),
         nextElements sizeA sizeB (shuffle eligible))).
Proof.
  intros total sizeA sizeB. split.
  - rewrite teamSizes_policy. subst sizeA sizeB.
    now destruct (policySizes total targetTeamSize).
  - intros Hn. rewrite assignTeams_slices. cbv zeta.
    fold total. fold sizeA. fold sizeB.
    destruct (policySizes_nonneg total targetTeamSize) as [Ha Hb];
      [subst total; lia | assumption |].
    fold sizeA in Ha. fold sizeB in Hb.
    unfold firstElements, nextElements.
    now rewrite slice_prefix, slice_next by assumption.
Qed.

Lemma assignTeams_policy_witness :
  teamSizes 3 (Some 1) = (1, 1)
  /\ assignTeams (@rev Player) [alice; bob; carol] 1 = ([carol], [bob]).
Proof.
  destruct (assignTeams_policy (@rev Player) [alice; bob; carol] 1) as [Hs Ho].
  split; [exact Hs | apply Ho; lia].
Defined.

(** C6. With pairwise distinct ids in the input, whatever the target size:
    no id occurs on both sides or twice on one side, the two lengths sum to
    at most the number of eligible players, and every player of either side
    is an eligible player. *)
Theorem assignTeams_partition (shuffle : list Player -> list Player)
    (eligible : list Player) (targetTeamSize : Z) :
  (forall l, Permutation l (shuffle l)) ->
  NoDup (map id eligible) ->
  let sideA := fst (assignTeams shuffle eligible targetTeamSize) in
  let sideB := snd (assignTeams shuffle eligible targetTeamSize) in
  (forall p q, In p sideA -> In q sideB -> id p <> id q)
  /\ NoDup (map id sideA) /\ NoDup (map id sideB)
  /\ (length sideA + length sideB <= length eligible)%nat
  /\ (forall p, In p sideA \/ In p sideB -> In p eligible).
Proof.
  intros Hperm Hids.
  rewrite assignTeams_slices. cbv zeta. cbn [fst snd].
  set (sizes := policySizes (Z.of_nat (length eligible)) targetTeamSize).
  destruct (slices_prefix (shuffle eligible) (fst sizes) (snd sizes))
    as (n & m & HA & HB).
  set (sideA := slice (shuffle eligible) 0 (fst sizes)) in *.
  set (sideB := slice (shuffle eligible) (fst sizes) (fst sizes + snd sizes)) in *.
  assert (Hboth : sideA ++ sideB = firstn (n + m) (shuffle eligible)).
  { rewrite HA, HB. symmetry. apply firstn_plus. }
  assert (Hnd : NoDup (map id (sideA ++ sideB))).
  { rewrite Hboth, <- firstn_map. apply NoDup_firstn.
    eapply Permutation_NoDup; [|exact Hids].
    apply Permutation_map, Hperm. }
  assert (Hin : forall p, In p (sideA ++ sideB) -> In p eligible).
  { intros p Hp. rewrite Hboth in Hp. apply In_firstn in Hp.
    eapply Permutation_in; [apply Permutation_sym, Hperm | exact Hp]. }
  rewrite map_app in Hnd.
  repeat split.
  - intros p q Hp Hq Heq.
    apply (in_map id) in Hp, Hq. rewrite Heq in Hp.
    revert Hp Hq. clear -Hnd.
    induction (map id sideA) as [|x xs IH]; simpl in *; [tauto|].
    inversion Hnd as [|? ? Hx Hrest]; subst.
    intros [->|Hp] Hq.
    + apply Hx, in_or_app. now right.
    + now apply IH.
  - now apply NoDup_app_remove_r in Hnd.
  - now apply NoDup_app_remove_l in Hnd.
  - rewrite <- length_app, Hboth, length_firstn.
    rewrite (shuffle_length shuffle eligible Hperm). lia.
  - intros p Hp. apply Hin, in_or_app. exact Hp.
Qed.

Lemma assignTeams_partition_witness :
  let sideA := fst (assignTeams (@rev Player) [alice; bob; carol] 1) in
  let sideB := snd (assignTeams (@rev Player) [alice; bob; carol] 1) in
  (forall p q, In p sideA -> In q sideB -> id p <> id q)
  /\ NoDup (map id sideA) /\ NoDup (map id sideB)
  /\ (length sideA + length sideB <= 3)%nat
  /\ (forall p, In p sideA \/ In p sideB -> In p [alice; bob; carol]).
Proof.
  apply (assignTeams_partition (@rev Player) [alice; bob; carol] 1).
  - intros l. apply Permutation_rev.
  - simpl. repeat constructor; simpl; intuition discriminate.
Defined.

(** C7, as stated, fails for a strictly negative target size: with two
    players and target [-1] side A holds one player. *)
Lemma assignTeams_negative_size_not_empty :
  assignTeams (fun l => l) [alice; bob] (-1) = ([alice], [])
  /\ assignTeams (fun l => l) [alice; bob] (-1) <> ([], []).
Proof. split; [reflexivity | vm_compute; discriminate]. Qed.

(** C7 (amended). [assignTeams] is total.  It returns two empty sequences
    for the empty eligible list (any integer target size) and for target size
    [0].  For a strictly negative target size side B is empty and side A is
    the shuffled list without its last [-targetTeamSize] elements. *)
Theorem assignTeams_degenerate (shuffle : list Player -> list Player)
    (eligible : list Player) (targetTeamSize : Z) :
  (forall l, Permutation l (shuffle l)) ->
  (eligible = [] \/ targetTeamSize = 0 ->
   assignTeams shuffle eligible targetTeamSize = ([], []))
  /\ (targetTeamSize < 0 ->
      assignTeams shuffle eligible targetTeamSize
      = (firstElements (Z.of_nat (length eligible) + targetTeamSize)
           (shuffle eligible), [])).
Proof.
  intros Hperm.
  rewrite assignTeams_slices. cbv zeta.
  rewrite policySizes_closed by lia. split.
  - intros [-> | ->].
    + rewrite (shuffle_nil shuffle Hperm). unfold slice. cbn [length skipn].
      rewrite !skipn_nil, !firstn_nil. reflexivity.
    + simpl Z.mul.
      replace (0 <=? Z.of_nat (length eligible)) with true
        by (symmetry; apply Z.leb_le; lia).
      cbn [fst snd Z.add].
      rewrite slice_prefix by lia. reflexivity.
  - intros Hneg.
    replace (2 * targetTeamSize <=? Z.of_nat (length eligible)) with true
      by (symmetry; apply Z.leb_le; lia).
    simpl fst; simpl snd.
    rewrite slice_drop_last, slice_empty_range by lia.
    unfold firstElements. now rewrite (shuffle_length shuffle eligible Hperm).
Qed.

Lemma assignTeams_degenerate_witness :
  assignTeams (@rev Player) [] 7 = ([], [])
  /\ assignTeams (@rev Player) [alice; bob; carol] 0 = ([], [])
  /\ assignTeams (@rev Player) [alice; bob; carol] (-1) = ([carol; bob], []).
Proof.
  pose proof (fun l : list Player => Permutation_rev l) as Hperm.
  destruct (assignTeams_degenerate (@rev Player) [] 7 Hperm) as [H1 _].
  destruct (assignTeams_degenerate (@rev Player) [alice; bob; carol] 0 Hperm)
    as [H2 _].
  destruct (assignTeams_degenerate (@rev Player) [alice; bob; carol] (-1) Hperm)
    as [_ H3].
  split; [apply H1; now left | split; [apply H2; now right | apply H3; lia]].
Defined.

End TeamSelectorFacts.

(* ================================================================== *)
(** ** Order of elements: [before], the stable sort, [Object.entries] *)
(* ================================================================== *)

Module OrderFacts.
Import JS Leaderboard.

Section Before.
Context {T : Type}.
Implicit Types l : list T.

Lemma before_cons l (a x y : T) :
  before (a :: l) x y <-> (x = a /\ In y l) \/ before l x y.
Proof.
  split.
  - intros (l1 & l2 & l3 & E). destruct l1 as [|a' l1]; simpl in E.
    + injection E as -> ->. left. split; [reflexivity|].
      apply in_or_app. right. now left.
    + injection E as -> ->. right. now exists l1, l2, l3.
  - intros [[-> Hy] | (l1 & l2 & l3 & ->)].
    + apply in_split in Hy as (l2 & l3 & ->). now exists [], l2, l3.
    + now exists (a :: l1), l2, l3.
Qed.

Lemma before_nil (x y : T) : ~ before [] x y.
Proof. intros (l1 & l2 & l3 & E). now destruct l1. Qed.

Lemma before_In l (x y : T) : before l x y -> In x l /\ In y l.
Proof.
  intros (l1 & l2 & l3 & ->). split.
  - apply in_or_app. right. now left.
  - apply in_or_app. right. right. apply in_or_app. right. now left.
Qed.

Lemma before_app l l' (x y : T) :
  before (l ++ l') x y ->
  before l x y \/ (In x l /\ In y l') \/ before l' x y.
Proof.
  induction l as [|a l IH]; simpl.
  - intros H. now right; right.
  - rewrite !before_cons. intros [[-> Hy] | H].
    + apply in_app_or in Hy as [Hy|Hy].
      * left. left. now split.
      * right. left. split; [now left | assumption].
    + destruct (IH H) as [H1 | [[H1 H2] | H1]].
      * left. now right.
      * right. left. split; [now right | assumption].
      * now right; right.
Qed.

Lemma before_snoc l (p x y : T) :
  before (l ++ [p]) x y -> before l x y \/ (In x l /\ y = p).
Proof.
  intros H. apply before_app in H as [H | [[H1 H2] | H]].
  - now left.
  - right. split; [assumption|]. destruct H2 as [<-|[]]. reflexivity.
  - apply before_cons in H as [[_ []] | H]. now apply before_nil in H.
Qed.

Lemma before_filter (f : T -> bool) l (x y : T) :
  before (filter f l) x y -> before l x y.
Proof.
  induction l as [|a l IH]; simpl.
  - intros H. now apply before_nil in H.
  - destruct (f a).
    + rewrite !before_cons. intros [[-> Hy] | H].
      * left. split; [reflexivity|]. now apply filter_In in Hy.
      * right. now apply IH.
    + intros H. apply before_cons. right. now apply IH.
Qed.

Lemma before_sorted (R : T -> T -> Prop) l (x y : T) :
  StronglySorted R l -> before l x y -> R x y.
Proof.
  induction 1 as [|a l Hl IH Ha].
  - intros H. now apply before_nil in H.
  - rewrite before_cons. intros [[-> Hy] | H].
    + rewrite Forall_forall in Ha. now apply Ha.
    + now apply IH.
Qed.

End Before.

Lemma before_map {T U : Type} (f : T -> U) (l : list T) (x y : U) :
  before (map f l) x y ->
  exists u v, before l u v /\ f u = x /\ f v = y.
Proof.
  induction l as [|a l IH]; simpl.
  - intros H. now apply before_nil in H.
  - rewrite before_cons. intros [[-> Hy] | H].
    + apply in_map_iff in Hy as (v & <- & Hv).
      exists a, v. split; [|now split]. apply before_cons. left. now split.
    + destruct (IH H) as (u & v & Huv & Hu & Hv).
      exists u, v. split; [|now split]. apply before_cons. now right.
Qed.

Lemma map_before {T U : Type} (f : T -> U) (l : list T) (u v : T) :
  before l u v -> before (map f l) (f u) (f v).
Proof.
  intros (l1 & l2 & l3 & ->).
  exists (map f l1), (map f l2), (map f l3).
  now rewrite map_app, map_cons, map_app, map_cons.
Qed.

(** *** The stable sort *)

Section Sort.
Context {T : Type} (cmp : T -> T -> Q).
Implicit Types l : list T.

Lemma insert_perm (a : T) l : Permutation (a :: l) (insert cmp a l).
Proof.
  induction l as [|b l IH]; simpl; [reflexivity|].
  destruct (after cmp a b); [|reflexivity].
  rewrite perm_swap. now apply perm_skip.
Qed.

Lemma sort_perm l : Permutation l (sort cmp l).
Proof.
  induction l as [|a l IH]; simpl; [reflexivity|].
  rewrite <- insert_perm. now apply perm_skip.
Qed.

Lemma In_sort l (x : T) : In x (sort cmp l) <-> In x l.
Proof.
  split; apply Permutation_in;
    [apply Permutation_sym|]; apply sort_perm.
Qed.

Hypothesis total : forall a b, after cmp a b = true -> mayPrecede cmp b a.
Hypothesis trans :
  forall a b c, mayPrecede cmp a b -> mayPrecede cmp b c -> mayPrecede cmp a c.

Lemma insert_sorted (a : T) l :
  StronglySorted (mayPrecede cmp) l -> StronglySorted (mayPrecede cmp) (insert cmp a l).
Proof.
  induction 1 as [|b l Hl IH Hb]; simpl.
  - repeat constructor.
  - destruct (after cmp a b) eqn:E.
    + constructor; [assumption|].
      rewrite Forall_forall in *. intros x Hx.
      eapply Permutation_in in Hx; [|apply Permutation_sym, insert_perm].
      destruct Hx as [<-|Hx]; [now apply total | now apply Hb].
    + constructor; [now constructor|].
      constructor; [exact E|].
      rewrite Forall_forall in *. intros x Hx.
      apply trans with b; [exact E | now apply Hb].
Qed.

Lemma sort_sorted l : StronglySorted (mayPrecede cmp) (sort cmp l).
Proof.
  induction l as [|a l IH]; simpl; [constructor | now apply insert_sorted].
Qed.

End Sort.

Section Stable.
Context {T : Type} (cmp : T -> T -> Q).
Implicit Types l : list T.

(** The inserted element overtakes only elements it must come after. *)
Lemma insert_before (a : T) l (x y : T) :
  before (insert cmp a l) x y ->
  before l x y \/ (x = a /\ In y l) \/ (y = a /\ In x l /\ after cmp a x = true).
Proof.
  induction l as [|b l IH]; simpl.
  - rewrite before_cons. intros [[_ []] | H]. now apply before_nil in H.
  - destruct (after cmp a b) eqn:E.
    + rewrite !before_cons. intros [[-> Hy] | H].
      * eapply Permutation_in in Hy; [|apply Permutation_sym, insert_perm].
        destruct Hy as [<-|Hy].
        -- right. right. repeat split; [now left | assumption].
        -- left. left. now split.
      * destruct (IH H) as [H1 | [[-> H1] | (-> & H1 & H2)]].
        -- left. now right.
        -- right. left. split; [reflexivity | now right].
        -- right. right. repeat split; [now right | assumption].
    + rewrite (before_cons (b :: l)). intros [[-> Hy] | H].
      * right. left. now split.
      * now left.
Qed.

(** Stability: two elements change their relative order only when the
    comparator demands it. *)
Lemma sort_stable l (x y : T) :
  before (sort cmp l) x y -> before l x y \/ after cmp y x = true.
Proof.
  revert x y. induction l as [|a l IH]; intros x y; simpl.
  - intros H. now apply before_nil in H.
  - intros H. apply insert_before in H as [H | [[-> H] | (-> & H1 & H2)]].
    + destruct (IH _ _ H) as [H'|H']; [|now right].
      left. apply before_cons. now right.
    + left. apply before_cons. left. split; [reflexivity|].
      now apply In_sort in H.
    + now right.
Qed.

End Stable.

(** The result of [sort] does not depend on the sorting algorithm: any
    rearrangement that is sorted and stable is the one computed here. *)

Lemma before_unique_order {T : Type} (l1 l2 : list T) :
  NoDup l1 -> Permutation l1 l2 ->
  (forall x y, before l1 x y -> before l2 x y) -> l1 = l2.
Proof.
  revert l2. induction l1 as [|a t IH]; intros l2 Hnd Hperm Hord.
  - now apply Permutation_nil in Hperm.
  - destruct l2 as [|b t2]; [now apply Permutation_sym, Permutation_nil in Hperm|].
    assert (Hnd2 : NoDup (b :: t2)) by (eapply Permutation_NoDup; eassumption).
    inversion Hnd as [|? ? Ha Ht]; subst.
    inversion Hnd2 as [|? ? Hb Ht2]; subst.
    assert (a = b) as <-.
    { destruct (Permutation_in b (Permutation_sym Hperm) (or_introl eq_refl))
        as [E|Hbt]; [assumption|].
      assert (H : before (a :: t) a b) by (apply before_cons; left; now split).
      apply Hord, before_cons in H as [[E _] | H]; [assumption|].
      apply before_In in H as [_ H]. contradiction. }
    f_equal. apply IH; [assumption | now apply Permutation_cons_inv in Hperm |].
    intros x y Hxy.
    assert (H : before (a :: t) x y) by (apply before_cons; now right).
    apply Hord, before_cons in H as [[-> _] | H]; [|assumption].
    apply before_In in Hxy as [Hx _]. contradiction.
Qed.

Lemma before_or {T : Type} (l : list T) (x y : T) :
  In x l -> In y l -> x = y \/ before l x y \/ before l y x.
Proof.
  induction l as [|a l IH]; simpl; [tauto|].
  rewrite !before_cons.
  intros [->|Hx] [->|Hy]; [now left | tauto | tauto |].
  destruct (IH Hx Hy) as [H|[H|H]]; tauto.
Qed.

Lemma before_asym {T : Type} (l : list T) (x y : T) :
  NoDup l -> before l x y -> before l y x -> False.
Proof.
  induction 1 as [|a l Ha Hl IH].
  - intros H. now apply before_nil in H.
  - rewrite !before_cons. intros [[-> Hy] | H1] [[-> Hx] | H2].
    + contradiction.
    + apply before_In in H2 as [_ H2]. contradiction.
    + apply before_In in H1 as [_ H1]. contradiction.
    + now apply IH.
Qed.

Section Unique.
Context {T : Type} (cmp : T -> T -> Q).
Hypothesis total : forall a b, after cmp a b = true -> mayPrecede cmp b a.
Hypothesis trans :
  forall a b c, mayPrecede cmp a b -> mayPrecede cmp b c -> mayPrecede cmp a c.

Lemma stable_sort_unique (l l' : list T) :
  NoDup l -> Permutation l l' ->
  StronglySorted (mayPrecede cmp) l' ->
  (forall x y, before l' x y -> before l x y \/ after cmp y x = true) ->
  l' = sort cmp l.
Proof.
  intros Hnd Hperm Hsorted Hstable.
  assert (Hnd' : NoDup l') by (eapply Permutation_NoDup; eassumption).
  apply before_unique_order; [assumption | |].
  - rewrite <- Hperm. apply sort_perm.
  - intros x y Hxy.
    pose proof (before_In _ _ _ Hxy) as [Hx Hy].
    assert (Hx' : In x (sort cmp l))
      by (apply In_sort; eapply Permutation_in; [apply Permutation_sym|]; eassumption).
    assert (Hy' : In y (sort cmp l))
      by (apply In_sort; eapply Permutation_in; [apply Permutation_sym|]; eassumption).
    destruct (before_or _ _ _ Hx' Hy') as [-> | [H | H]]; [|assumption|].
    + exfalso. now apply (before_asym l' y y).
    + exfalso.
      pose proof (before_sorted _ _ _ _ Hsorted Hxy) as Hxy_le.
      pose proof (before_sorted _ _ _ _ (sort_sorted cmp total trans l) H) as Hyx_le.
      unfold mayPrecede in *.
      destruct (Hstable _ _ Hxy) as [H1|H1]; [|congruence].
      destruct (sort_stable cmp _ _ _ H) as [H2|H2]; [|congruence].
      now apply (before_asym l x y).
Qed.

End Unique.

(** *** [Object.entries] *)

Section Entries.
Context {V : Type}.
Implicit Types l : list (string * V).

Lemma insertIndexed_perm (kv : string * V) l :
  Permutation (kv :: l) (insertIndexed kv l).
Proof.
  induction l as [|b l IH]; simpl; [reflexivity|].
  destruct (indexOf (fst b) <? indexOf (fst kv))%Z; [|reflexivity].
  rewrite perm_swap. now apply perm_skip.
Qed.

Lemma indexed_perm l : Permutation l (fold_right insertIndexed [] l).
Proof.
  induction l as [|a l IH]; simpl; [reflexivity|].
  rewrite <- insertIndexed_perm. now apply perm_skip.
Qed.

Lemma insertIndexed_sorted (kv : string * V) l :
  StronglySorted byIndex l -> StronglySorted byIndex (insertIndexed kv l).
Proof.
  induction 1 as [|b l Hl IH Hb]; simpl.
  - repeat constructor.
  - destruct (Z.ltb_spec (indexOf (fst b)) (indexOf (fst kv))) as [E|E].
    + constructor; [assumption|].
      rewrite Forall_forall in *. intros x Hx.
      eapply Permutation_in in Hx; [|apply Permutation_sym, insertIndexed_perm].
      destruct Hx as [<-|Hx]; [unfold byIndex; lia | now apply Hb].
    + constructor; [now constructor|].
      constructor; [exact E|].
      rewrite Forall_forall in *. intros x Hx.
      specialize (Hb x Hx). unfold byIndex in *. lia.
Qed.

Lemma indexed_sorted l : StronglySorted byIndex (fold_right insertIndexed [] l).
Proof.
  induction l as [|a l IH]; simpl; [constructor | now apply insertIndexed_sorted].
Qed.

Lemma entries_perm l : Permutation l (entries l).
Proof.
  unfold entries. rewrite <- indexed_perm.
  induction l as [|a l IH]; simpl; [reflexivity|].
  destruct (isArrayIndex (fst a)); simpl.
  - now apply perm_skip.
  - now apply Permutation_cons_app.
Qed.

Lemma In_entries l (kv : string * V) : In kv (entries l) <-> In kv l.
Proof.
  split; apply Permutation_in; [apply Permutation_sym|]; apply entries_perm.
Qed.

(** How two entries can follow each other in [Object.entries]. *)
Lemma entries_before l (a b : string * V) :
  before (entries l) a b ->
  match arrayIndex (fst a), arrayIndex (fst b) with
  | Some i, Some j => (i <= j)%Z
  | Some _, None => True
  | None, Some _ => False
  | None, None => before l a b
  end.
Proof.
  unfold entries. intros H.
  assert (Hidx : forall x,
            In x (fold_right insertIndexed []
                    (filter (fun kv => isArrayIndex (fst kv)) l)) ->
            isArrayIndex (fst x) = true).
  { intros x Hx.
    eapply Permutation_in in Hx; [|apply Permutation_sym, indexed_perm].
    now apply filter_In in Hx. }
  assert (Hnon : forall x,
            In x (filter (fun kv => negb (isArrayIndex (fst kv))) l) ->
            isArrayIndex (fst x) = false).
  { intros x Hx. apply filter_In in Hx as [_ Hx]. now apply negb_true_iff. }
  apply before_app in H as [H | [[Ha Hb] | H]].
  - pose proof (before_In _ _ _ H) as [Ha Hb].
    apply Hidx in Ha, Hb.
    apply (before_sorted byIndex) in H; [|apply indexed_sorted].
    unfold byIndex, indexOf, isArrayIndex in *.
    destruct (arrayIndex (fst a)), (arrayIndex (fst b)); try discriminate.
    exact H.
  - apply Hidx in Ha. apply Hnon in Hb. unfold isArrayIndex in *.
    destruct (arrayIndex (fst a)), (arrayIndex (fst b)); try discriminate.
    exact I.
  - pose proof (before_In _ _ _ H) as [Ha Hb].
    apply Hnon in Ha, Hb. unfold isArrayIndex in *.
    destruct (arrayIndex (fst a)), (arrayIndex (fst b)); try discriminate.
    now apply before_filter in H.
Qed.

End Entries.

End OrderFacts.

(* ================================================================== *)
(** ** Leaderboard: the dictionary of tallies *)
(* ================================================================== *)

Module LeaderboardFacts.
Import JS JSFacts Leaderboard.

Local Open Scope nat_scope.

(** *** Own properties *)

Lemma getOwn_None (o : Dict) (k : string) :
  getOwn o k = None <-> ~ In k (keys o).
Proof.
  induction o as [|[k' v] o IH]; simpl.
  - tauto.
  - destruct (String.eqb_spec k' k) as [->|Hne].
    + split; [discriminate | intros H; exfalso; apply H; now left].
    + rewrite IH. tauto.
Qed.

Lemma getOwn_In (o : Dict) (k : string) (v : Tally) :
  getOwn o k = Some v -> In (k, v) o.
Proof.
  induction o as [|[k' v'] o IH]; simpl; [discriminate|].
  destruct (String.eqb_spec k' k) as [->|Hne].
  - intros [= ->]. now left.
  - intros H. right. now apply IH.
Qed.

Lemma In_getOwn (o : Dict) (k : string) (v : Tally) :
  NoDup (keys o) -> In (k, v) o -> getOwn o k = Some v.
Proof.
  induction o as [|[k' v'] o IH]; simpl; [tauto|].
  intros Hnd [[= -> ->]|Hin].
  - now rewrite String.eqb_refl.
  - inversion Hnd as [|? ? Hk' Hrest]; subst.
    destruct (String.eqb_spec k' k) as [->|Hne].
    + exfalso. apply Hk'. change k with (fst (k, v)). now apply in_map.
    + now apply IH.
Qed.

Lemma existsb_keys (o : Dict) (k : string) :
  existsb (String.eqb k) (keys o) = match getOwn o k with Some _ => true | None => false end.
Proof.
  induction o as [|[k' v] o IH]; simpl; [reflexivity|].
  rewrite (String.eqb_sym k k').
  destruct (String.eqb k' k); simpl; [reflexivity | exact IH].
Qed.

Lemma update_keys (o : Dict) (k : string) f : keys (update o k f) = keys o.
Proof.
  induction o as [|[k' v] o IH]; simpl; [reflexivity|].
  destruct (String.eqb k' k); simpl; [reflexivity | now rewrite IH].
Qed.

Lemma update_absent (o : Dict) (k : string) f :
  getOwn o k = None -> update o k f = o.
Proof.
  induction o as [|[k' v] o IH]; simpl; [reflexivity|].
  destruct (String.eqb k' k); [discriminate|].
  intros H. now rewrite IH.
Qed.

Lemma update_update (o : Dict) (k : string) f g :
  update (update o k f) k g = update o k (fun v => g (f v)).
Proof.
  induction o as [|[k' v] o IH]; simpl; [reflexivity|].
  destruct (String.eqb k' k) eqn:E; simpl; rewrite E; [reflexivity | now rewrite IH].
Qed.

Lemma update_create (o : Dict) (k : string) (v : Tally) f :
  getOwn o k = None -> update (create o k v) k f = o ++ [(k, f v)].
Proof.
  unfold create.
  induction o as [|[k' v'] o IH]; simpl.
  - now rewrite String.eqb_refl.
  - destruct (String.eqb k' k); [discriminate|].
    intros H. now rewrite IH.
Qed.

Lemma update_ext (o : Dict) (k : string) f g :
  (forall v, f v = g v) -> update o k f = update o k g.
Proof.
  intros H. induction o as [|[k' v] o IH]; simpl; [reflexivity|].
  destruct (String.eqb k' k); [now rewrite H | now rewrite IH].
Qed.

Lemma getOwn_update (o : Dict) (k p : string) f :
  getOwn (update o p f) k =
  if String.eqb p k then option_map f (getOwn o k) else getOwn o k.
Proof.
  induction o as [|[k' v] o IH]; simpl.
  - now destruct (String.eqb p k).
  - destruct (String.eqb_spec k' p) as [->|Hne]; simpl.
    + destruct (String.eqb_spec p k); reflexivity.
    + destruct (String.eqb_spec k' k) as [->|Hne'].
      * destruct (String.eqb_spec p k); [congruence | reflexivity].
      * exact IH.
Qed.

Lemma getOwn_app (o o' : Dict) (k : string) :
  getOwn (o ++ o') k = match getOwn o k with Some v => Some v | None => getOwn o' k end.
Proof.
  induction o as [|[k' v] o IH]; simpl; [reflexivity|].
  destruct (String.eqb k' k); [reflexivity | exact IH].
Qed.

(** *** One roster listing *)

(** [countPlayer] in closed form: a listing of an inherited name changes no
    own property, a listing of a known name advances its tally in place, and
    a listing of a new name creates the last property. *)
Lemma countPlayer_closed (won : bool) (o : Dict) (p : string) :
  countPlayer won o p =
  match getOwn o p with
  | Some _ => update o p (step won)
  | None => if inherited p then o else o ++ [(p, step won (mkTally 0 0))]
  end.
Proof.
  unfold countPlayer, get.
  destruct (getOwn o p) as [v|] eqn:E; simpl.
  - destruct won; [rewrite update_update|]; apply update_ext; now intros [].
  - destruct (inherited p); simpl.
    + rewrite (update_absent o p incGamesPlayed E).
      destruct won; [now rewrite update_absent | reflexivity].
    + rewrite update_create by assumption.
      destruct won; [|reflexivity].
      replace (o ++ [(p, incGamesPlayed (mkTally 0 0))])
        with (create o p (incGamesPlayed (mkTally 0 0))) by reflexivity.
      now rewrite update_create.
Qed.

Lemma countPlayer_keys (won : bool) (o : Dict) (p : string) :
  keys (countPlayer won o p) = addKey (keys o) p.
Proof.
  rewrite countPlayer_closed. unfold addKey. rewrite existsb_keys.
  destruct (getOwn o p).
  - rewrite orb_true_r. apply update_keys.
  - rewrite orb_false_r. destruct (inherited p); [reflexivity|].
    unfold keys. now rewrite map_app.
Qed.

Lemma step_good (won : bool) (v : Tally) :
  t_wins v <= t_gamesPlayed v -> goodTally (step won v).
Proof. unfold goodTally, step, bump. destruct won; simpl; lia. Qed.

Lemma Forall_update (P : string * Tally -> Prop) (o : Dict) (k : string) f :
  Forall P o -> (forall v, P (k, v) -> P (k, f v)) -> Forall P (update o k f).
Proof.
  intros Ho Hf. induction Ho as [|[k' v] o Hkv Ho IH]; simpl; [constructor|].
  destruct (String.eqb_spec k' k) as [->|Hne]; constructor; auto.
Qed.

Lemma countPlayer_good (won : bool) (o : Dict) (p : string) :
  Forall (fun kv => goodTally (snd kv)) o ->
  Forall (fun kv => goodTally (snd kv)) (countPlayer won o p).
Proof.
  intros Ho. rewrite countPlayer_closed.
  destruct (getOwn o p).
  - apply Forall_update; [assumption|].
    simpl. intros v [_ Hv]. now apply step_good.
  - destruct (inherited p); [assumption|].
    apply Forall_app. split; [assumption|].
    constructor; [|constructor]. simpl. apply step_good. simpl. lia.
Qed.

Lemma countPlayer_games (won : bool) (o : Dict) (p k : string) :
  inherited k = false ->
  gamesOf (countPlayer won o p) k
  = gamesOf o k + (if String.eqb p k then 1 else 0).
Proof.
  intros Hk. rewrite countPlayer_closed. unfold gamesOf.
  destruct (getOwn o p) as [v|] eqn:E.
  - rewrite getOwn_update.
    destruct (String.eqb_spec p k) as [->|Hne]; [|lia].
    rewrite E. simpl. lia.
  - destruct (String.eqb_spec p k) as [->|Hne].
    + rewrite Hk, getOwn_app, E. simpl. now rewrite String.eqb_refl.
    + destruct (inherited p); [lia|].
      rewrite getOwn_app. simpl.
      destruct (String.eqb_spec p k); [congruence|].
      destruct (getOwn o k); lia.
Qed.

Lemma countPlayer_wins (won : bool) (o : Dict) (p k : string) :
  inherited k = false ->
  winsOf (countPlayer won o p) k
  = winsOf o k + (if won && String.eqb p k then 1 else 0).
Proof.
  intros Hk. rewrite countPlayer_closed. unfold winsOf.
  destruct (getOwn o p) as [v|] eqn:E.
  - rewrite getOwn_update.
    destruct (String.eqb_spec p k) as [->|Hne]; [|rewrite andb_false_r; lia].
    rewrite E. destruct won; simpl; lia.
  - destruct (String.eqb_spec p k) as [->|Hne].
    + rewrite Hk, getOwn_app, E. simpl. rewrite String.eqb_refl.
      destruct won; reflexivity.
    + rewrite andb_false_r.
      destruct (inherited p); [lia|].
      rewrite getOwn_app. simpl.
      destruct (String.eqb_spec p k); [congruence|].
      destruct (getOwn o k); lia.
Qed.

(** *** One roster *)

Lemma countRoster_keys (won : bool) (roster : list string) (o : Dict) :
  keys (countRoster won o roster) = fold_left addKey roster (keys o).
Proof.
  unfold countRoster. revert o.
  induction roster as [|p roster IH]; intros o; simpl; [reflexivity|].
  now rewrite IH, countPlayer_keys.
Qed.

Lemma countRoster_good (won : bool) (roster : list string) (o : Dict) :
  Forall (fun kv => goodTally (snd kv)) o ->
  Forall (fun kv => goodTally (snd kv)) (countRoster won o roster).
Proof.
  unfold countRoster. revert o.
  induction roster as [|p roster IH]; intros o Ho; simpl; [assumption|].
  apply IH. now apply countPlayer_good.
Qed.

Lemma occurrences_cons (k p : string) (roster : list string) :
  occurrences k (p :: roster)
  = (if String.eqb p k then 1 else 0) + occurrences k roster.
Proof.
  unfold occurrences. simpl.
  destruct (string_dec p k) as [->|Hne].
  - now rewrite String.eqb_refl.
  - destruct (String.eqb_spec p k); [congruence | reflexivity].
Qed.

Lemma countRoster_games (won : bool) (roster : list string) (o : Dict) (k : string) :
  inherited k = false ->
  gamesOf (countRoster won o roster) k = gamesOf o k + occurrences k roster.
Proof.
  intros Hk. unfold countRoster. revert o.
  induction roster as [|p roster IH]; intros o; cbn [fold_left].
  - unfold occurrences. simpl. lia.
  - rewrite IH, countPlayer_games, occurrences_cons by assumption. lia.
Qed.

Lemma countRoster_wins (won : bool) (roster : list string) (o : Dict) (k : string) :
  inherited k = false ->
  winsOf (countRoster won o roster) k
  = winsOf o k + (if won then occurrences k roster else 0).
Proof.
  intros Hk. unfold countRoster. revert o.
  induction roster as [|p roster IH]; intros o; cbn [fold_left].
  - unfold occurrences. simpl. destruct won; lia.
  - rewrite IH, countPlayer_wins, occurrences_cons by assumption.
    destruct won; simpl; lia.
Qed.

(** *** One record, and the whole history *)

Lemma processGame_games (acc : Acc) (game : GameLog) (k : string) :
  inherited k = false ->
  gamesOf (playerWins (processGame acc game)) k
  = gamesOf (playerWins acc) k + listings k game.
Proof.
  intros Hk. unfold processGame, listings.
  destruct (outcome game) as [fl|]; simpl; [|lia].
  rewrite !countRoster_games by assumption. lia.
Qed.

Lemma processGame_wins (acc : Acc) (game : GameLog) (k : string) :
  inherited k = false ->
  winsOf (playerWins (processGame acc game)) k
  = winsOf (playerWins acc) k + winningListings k game.
Proof.
  intros Hk. unfold processGame, winningListings.
  destruct (outcome game) as [fl|]; simpl; [|lia].
  rewrite !countRoster_wins by assumption. lia.
Qed.

Lemma processGame_good (acc : Acc) (game : GameLog) :
  Forall (fun kv => goodTally (snd kv)) (playerWins acc) ->
  Forall (fun kv => goodTally (snd kv)) (playerWins (processGame acc game)).
Proof.
  intros H. unfold processGame.
  destruct (outcome game); simpl; [|assumption].
  now apply countRoster_good, countRoster_good.
Qed.

Lemma processGame_keys (acc : Acc) (game : GameLog) :
  keys (playerWins (processGame acc game))
  = fold_left addKey
      (if counted game
       then green_team_players game ++ orange_team_players game else [])
      (keys (playerWins acc)).
Proof.
  unfold processGame, counted.
  destruct (outcome game); simpl; [|reflexivity].
  now rewrite !countRoster_keys, fold_left_app.
Qed.

Lemma fold_games (data : list GameLog) (acc : Acc) (k : string) :
  inherited k = false ->
  gamesOf (playerWins (fold_left processGame data acc)) k
  = gamesOf (playerWins acc) k + total (listings k) data.
Proof.
  intros Hk. revert acc.
  induction data as [|game data IH]; intros acc; simpl; [lia|].
  rewrite IH, processGame_games by assumption. lia.
Qed.

Lemma fold_wins (data : list GameLog) (acc : Acc) (k : string) :
  inherited k = false ->
  winsOf (playerWins (fold_left processGame data acc)) k
  = winsOf (playerWins acc) k + total (winningListings k) data.
Proof.
  intros Hk. revert acc.
  induction data as [|game data IH]; intros acc; simpl; [lia|].
  rewrite IH, processGame_wins by assumption. lia.
Qed.

Lemma fold_good (data : list GameLog) (acc : Acc) :
  Forall (fun kv => goodTally (snd kv)) (playerWins acc) ->
  Forall (fun kv => goodTally (snd kv)) (playerWins (fold_left processGame data acc)).
Proof.
  revert acc. induction data as [|game data IH]; intros acc H; simpl; [assumption|].
  apply IH. now apply processGame_good.
Qed.

Lemma fold_keys (data : list GameLog) (acc : Acc) :
  keys (playerWins (fold_left processGame data acc))
  = fold_left addKey (scanned data) (keys (playerWins acc)).
Proof.
  revert acc. induction data as [|game data IH]; intros acc; simpl; [reflexivity|].
  unfold scanned in *. simpl. now rewrite IH, processGame_keys, fold_left_app.
Qed.

Lemma aggregate_good (data : list GameLog) :
  Forall (fun kv => goodTally (snd kv)) (playerWins (aggregate data)).
Proof. apply fold_good. constructor. Qed.

Lemma aggregate_keys (data : list GameLog) :
  keys (playerWins (aggregate data)) = fold_left addKey (scanned data) [].
Proof. apply fold_keys. Qed.

Lemma fold_teamStats (data : list GameLog) (acc : Acc) :
  let ts := teamStats acc in
  let ts' := teamStats (fold_left processGame data acc) in
  greenWins ts' = greenWins ts + total (flagged greenWon) data
  /\ orangeWins ts' = orangeWins ts + total (flagged orangeWon) data
  /\ draws ts' = draws ts + total (flagged isDraw) data
  /\ totalGames ts' = totalGames ts + total countedOnce data.
Proof.
  revert acc. induction data as [|game data IH]; intros acc; simpl.
  - lia.
  - destruct (IH (processGame acc game)) as (Hg & Ho & Hd & Ht).
    rewrite Hg, Ho, Hd, Ht.
    unfold processGame, flagged, countedOnce, counted, bump.
    destruct (outcome game) as [[[] [] []]|]; simpl; lia.
Qed.

End LeaderboardFacts.

(* ================================================================== *)
(** ** Leaderboard: the comparator, the keys and their order *)
(* ================================================================== *)

Module RankingFacts.
Import JS JSFacts OrderFacts Leaderboard LeaderboardFacts.

(** *** The comparator of [sort] *)

Lemma Qle_bool_diff (x y : Z) :
  Qle_bool (inject_Z x - inject_Z y) 0 = (x <=? y)%Z.
Proof.
  unfold Qle_bool, Qminus, Qplus, Qopp, inject_Z; cbn [Qnum Qden].
  apply Bool.eq_true_iff_eq. rewrite !Z.leb_le. lia.
Qed.

(** The comparator answers "not positive" exactly when its first argument
    ranks at least as high as the second. *)
Lemma after_false_iff (a b : PlayerStats) :
  after compareStats a b = false <-> rankedBefore a b.
Proof.
  unfold after, rankedBefore, compareStats.
  rewrite negb_false_iff.
  destruct (Nat.eqb_spec (wins b) (wins a)) as [Hw|Hw]; cbn [negb].
  - destruct (Qeq_bool (winRate b) (winRate a)) eqn:Hr; cbn [negb].
    + apply Qeq_bool_iff in Hr.
      rewrite Qle_bool_diff, Z.leb_le. split.
      * intros H. right. right. repeat split; [lia | now symmetry | lia].
      * intros [H | [[_ H] | (_ & _ & H)]]; [lia | lra | lia].
    + apply Qeq_bool_neq in Hr.
      rewrite Qle_bool_iff. split.
      * intros H. right. left. split; [lia|].
        destruct (Qlt_le_dec (winRate b) (winRate a)) as [Hlt|Hge]; [assumption|].
        exfalso. apply Hr. lra.
      * intros [H | [[_ H] | (_ & H & _)]]; [lia | lra |].
        exfalso. apply Hr. now symmetry.
  - rewrite Qle_bool_diff, Z.leb_le. split.
    + intros H. left. lia.
    + intros [H | [[H _] | (H & _)]]; lia.
Qed.

Lemma rankedBefore_total (a b : PlayerStats) :
  rankedBefore a b \/ rankedBefore b a.
Proof.
  unfold rankedBefore.
  destruct (lt_eq_lt_dec (wins a) (wins b)) as [[Hw|Hw]|Hw]; [now right; left | | now left; left].
  destruct (Q_dec (winRate a) (winRate b)) as [[Hr|Hr]|Hr].
  - right. right. left. split; [now symmetry | assumption].
  - left. right. left. now split.
  - destruct (Nat.le_ge_cases (gamesPlayed a) (gamesPlayed b)).
    + right. right. right. repeat split; [now symmetry | now symmetry | assumption].
    + left. right. right. now repeat split.
Qed.

Lemma rankedBefore_trans (a b c : PlayerStats) :
  rankedBefore a b -> rankedBefore b c -> rankedBefore a c.
Proof.
  unfold rankedBefore.
  intros [H1 | [[H1 H1'] | (H1 & H1' & H1'')]] [H2 | [[H2 H2'] | (H2 & H2' & H2'')]];
    first [ left; lia
          | right; left; split; [lia | lra]
          | right; right; repeat split; [lia | lra | lia] ].
Qed.

Lemma tie_not_after (a b : PlayerStats) :
  tie a b -> after compareStats b a = false.
Proof.
  intros (Hw & Hr & Hg). apply after_false_iff. right. right.
  repeat split; [lia | now symmetry | lia].
Qed.

Lemma StronglySorted_impl {T} (R R' : T -> T -> Prop) (l : list T) :
  (forall x y, R x y -> R' x y) -> StronglySorted R l -> StronglySorted R' l.
Proof.
  intros HR. induction 1 as [|a l Hl IH Ha]; constructor; [assumption|].
  eapply Forall_impl; [|exact Ha]. intros y. apply HR.
Qed.

Lemma sort_ranked (l : list PlayerStats) :
  StronglySorted rankedBefore (sort compareStats l).
Proof.
  apply StronglySorted_impl with (R := mayPrecede compareStats).
  - intros x y. apply after_false_iff.
  - apply sort_sorted.
    + intros a b Hab. apply after_false_iff.
      destruct (rankedBefore_total a b) as [H|H]; [|assumption].
      apply after_false_iff in H. congruence.
    + intros a b c. unfold mayPrecede. rewrite !after_false_iff.
      apply rankedBefore_trans.
Qed.

(** *** Array indices are canonical *)

Lemma isDigit_value (c : ascii) :
  isDigit c = true -> (0 <= Z.of_nat (nat_of_ascii c) - 48 < 10)%Z.
Proof.
  unfold isDigit. rewrite andb_true_iff, !Nat.leb_le. lia.
Qed.

Lemma decimal_acc (s : string) (acc : Z) :
  decimal s acc = (acc * 10 ^ Z.of_nat (String.length s) + decimal s 0)%Z.
Proof.
  revert acc. induction s as [|c s IH]; intros acc; cbn [decimal String.length].
  - change (10 ^ Z.of_nat 0)%Z with 1%Z. lia.
  - rewrite IH, (IH (10 * 0 + _)%Z).
    rewrite Nat2Z.inj_succ, Z.pow_succ_r by lia. lia.
Qed.

Lemma decimal_bound (s : string) :
  allDigits s = true -> (0 <= decimal s 0 < 10 ^ Z.of_nat (String.length s))%Z.
Proof.
  induction s as [|c s IH]; cbn [allDigits decimal String.length].
  - intros _. change (10 ^ Z.of_nat 0)%Z with 1%Z. lia.
  - rewrite andb_true_iff. intros [Hc Hs].
    apply isDigit_value in Hc. specialize (IH Hs).
    rewrite decimal_acc, Nat2Z.inj_succ, Z.pow_succ_r by lia. nia.
Qed.

Lemma digit_inj (c c' : ascii) :
  Z.of_nat (nat_of_ascii c) = Z.of_nat (nat_of_ascii c') -> c = c'.
Proof.
  intros H. apply Nat2Z.inj in H.
  rewrite <- (ascii_nat_embedding c), <- (ascii_nat_embedding c'). now f_equal.
Qed.

Lemma decimal_inj_same_length (s s' : string) :
  allDigits s = true -> allDigits s' = true ->
  String.length s = String.length s' ->
  decimal s 0 = decimal s' 0 -> s = s'.
Proof.
  revert s'. induction s as [|c s IH]; intros [|c' s']; cbn [String.length];
    try discriminate; [reflexivity|].
  cbn [allDigits decimal]. rewrite !andb_true_iff.
  intros [Hc Hs] [Hc' Hs'] Hlen Heq. injection Hlen as Hlen.
  rewrite decimal_acc, (decimal_acc s') in Heq. rewrite <- Hlen in Heq.
  apply isDigit_value in Hc, Hc'.
  pose proof (decimal_bound s Hs) as Hb.
  pose proof (decimal_bound s' Hs') as Hb'. rewrite <- Hlen in Hb'.
  assert (Hd : (Z.of_nat (nat_of_ascii c) = Z.of_nat (nat_of_ascii c'))%Z) by nia.
  assert (Hr : decimal s 0 = decimal s' 0) by nia.
  f_equal; [now apply digit_inj | now apply IH].
Qed.

(** A canonical numeral of [n] digits is at least [10^(n-1)], except ["0"]. *)
Lemma canonical_lower (c : ascii) (s : string) (i : Z) :
  arrayIndex (String c s) = Some i ->
  allDigits (String c s) = true
  /\ i = decimal (String c s) 0
  /\ (s <> EmptyString -> (10 ^ Z.of_nat (String.length s) <= i)%Z).
Proof.
  unfold arrayIndex.
  destruct (allDigits (String c s)) eqn:Hd; cbn [andb]; [|discriminate].
  destruct (negb (Ascii.eqb c "0") || String.eqb s EmptyString) eqn:Hc; cbn [andb];
    [|discriminate].
  destruct (decimal (String c s) 0 <? 2 ^ 32 - 1)%Z; [|discriminate].
  intros [= <-]. split; [reflexivity|]. split; [reflexivity|].
  intros Hne. apply orb_true_iff in Hc as [Hc|Hc].
  - cbn [allDigits] in Hd. apply andb_true_iff in Hd as [Hdc Hds].
    pose proof (isDigit_value c Hdc) as Hv.
    assert (Z.of_nat (nat_of_ascii c) - 48 <> 0)%Z.
    { intros H0. apply negb_true_iff in Hc.
      assert (c = "0"%char) as ->.
      { apply digit_inj. simpl. lia. }
      now rewrite Ascii.eqb_refl in Hc. }
    cbn [decimal]. rewrite decimal_acc.
    pose proof (decimal_bound s Hds). nia.
  - apply String.eqb_eq in Hc. contradiction.
Qed.

Lemma arrayIndex_inj (s s' : string) (i : Z) :
  arrayIndex s = Some i -> arrayIndex s' = Some i -> s = s'.
Proof.
  intros H H'.
  destruct s as [|c s]; [discriminate|]. destruct s' as [|c' s']; [discriminate|].
  apply canonical_lower in H as (Hd & Hi & Hlow).
  apply canonical_lower in H' as (Hd' & Hi' & Hlow').
  pose proof (decimal_bound _ Hd) as Hb. pose proof (decimal_bound _ Hd') as Hb'.
  rewrite <- Hi in Hb. rewrite <- Hi' in Hb'.
  cbn [String.length] in Hb, Hb'. rewrite Nat2Z.inj_succ in Hb, Hb'.
  apply decimal_inj_same_length; try assumption; [|congruence].
  cbn [String.length]. f_equal.
  destruct (Nat.lt_trichotomy (String.length s) (String.length s')) as [Hlt|[Heq|Hgt]];
    [exfalso | assumption | exfalso].
  - assert (Hne : s' <> EmptyString) by (intros ->; simpl in Hlt; lia).
    specialize (Hlow' Hne).
    assert (10 ^ Z.succ (Z.of_nat (String.length s))
            <= 10 ^ Z.of_nat (String.length s'))%Z
      by (apply Z.pow_le_mono_r; lia).
    lia.
  - assert (Hne : s <> EmptyString) by (intros ->; simpl in Hgt; lia).
    specialize (Hlow Hne).
    assert (10 ^ Z.succ (Z.of_nat (String.length s'))
            <= 10 ^ Z.of_nat (String.length s))%Z
      by (apply Z.pow_le_mono_r; lia).
    lia.
Qed.

(** *** The own keys are the names in the order of their first listing *)

Local Open Scope nat_scope.

Lemma firstPos_In (x : string) (l l' : list string) :
  In x l -> firstPos x (l ++ l') = firstPos x l /\ firstPos x l < length l.
Proof.
  induction l as [|y l IH]; simpl; [tauto|].
  destruct (String.eqb_spec y x) as [->|Hne].
  - intros _. lia.
  - intros [H|H]; [contradiction|]. destruct (IH H). lia.
Qed.

Lemma firstPos_not_In (x : string) (l l' : list string) :
  ~ In x l -> firstPos x (l ++ l') = length l + firstPos x l'.
Proof.
  induction l as [|y l IH]; simpl; [reflexivity|].
  destruct (String.eqb_spec y x) as [->|Hne].
  - intros H. exfalso. apply H. now left.
  - intros H. rewrite IH; [reflexivity | tauto].
Qed.

Lemma existsb_eqb_In (x : string) (l : list string) :
  existsb (String.eqb x) l = true <-> In x l.
Proof.
  rewrite existsb_exists. split.
  - intros (y & Hy & E). apply String.eqb_eq in E. now subst.
  - intros H. exists x. split; [assumption | apply String.eqb_refl].
Qed.

Lemma keys_first_listing (l : list string) :
  NoDup (fold_left addKey l [])
  /\ (forall x, In x (fold_left addKey l []) <-> In x l /\ inherited x = false)
  /\ (forall a b, before (fold_left addKey l []) a b -> firstPos a l < firstPos b l).
Proof.
  induction l as [|p l (Hnd & Hin & Hord)] using rev_ind.
  - simpl. split; [constructor|]. split; [tauto|].
    intros a b H. now apply before_nil in H.
  - rewrite fold_left_app. cbn [fold_left].
    set (ks := fold_left addKey l []) in *.
    assert (Hkeep : forall a b, before ks a b ->
                      firstPos a (l ++ [p]) < firstPos b (l ++ [p])).
    { intros a b H. pose proof (before_In _ _ _ H) as [Ha Hb].
      apply Hin in Ha as [Ha _]. apply Hin in Hb as [Hb _].
      destruct (firstPos_In a l [p] Ha) as [-> _].
      destruct (firstPos_In b l [p] Hb) as [-> _].
      now apply Hord. }
    unfold addKey.
    destruct (inherited p) eqn:Hp; cbn [orb].
    + split; [assumption|]. split; [|assumption].
      intros x. rewrite Hin, in_app_iff. simpl. split; [tauto|].
      intros [[H|[<-|[]]] Hx]; [tauto | congruence].
    + destruct (existsb (String.eqb p) ks) eqn:Hex.
      * apply existsb_eqb_In in Hex.
        split; [assumption|]. split; [|assumption].
        intros x. rewrite Hin, in_app_iff. simpl. split; [tauto|].
        intros [[H|[<-|[]]] Hx]; [tauto|]. now apply Hin.
      * assert (Hnew : ~ In p ks).
        { intros H. apply existsb_eqb_In in H. congruence. }
        assert (Hfresh : ~ In p l).
        { intros H. apply Hnew, Hin. now split. }
        split.
        { apply NoDup_app; [assumption | repeat constructor; intros [] |].
          intros x Hx [<-|[]]. contradiction. }
        split.
        { intros x. rewrite !in_app_iff, Hin. simpl. split.
          - intros [[H1 H2]|[<-|[]]]; tauto.
          - intros [[H|[<-|[]]] Hx]; tauto. }
        intros a b H. apply before_snoc in H as [H | [Ha ->]].
        { now apply Hkeep. }
        apply Hin in Ha as [Ha _].
        destruct (firstPos_In a l [p] Ha) as [-> Hlt].
        rewrite firstPos_not_In by assumption. lia.
Qed.

Lemma aggregate_keys_NoDup (data : list GameLog) :
  NoDup (keys (playerWins (aggregate data))).
Proof. rewrite aggregate_keys. apply keys_first_listing. Qed.

Lemma aggregate_keys_in (data : list GameLog) (x : string) :
  In x (keys (playerWins (aggregate data)))
  <-> In x (scanned data) /\ inherited x = false.
Proof. rewrite aggregate_keys. apply keys_first_listing. Qed.

Lemma aggregate_keys_order (data : list GameLog) (a b : string) :
  before (keys (playerWins (aggregate data))) a b -> reachedBefore data a b.
Proof. rewrite aggregate_keys. apply keys_first_listing. Qed.

Lemma before_distinct {T} (l : list T) (x y : T) :
  NoDup l -> before l x y -> x <> y.
Proof.
  intros Hnd (l1 & l2 & l3 & ->) <-.
  apply NoDup_remove_2 in Hnd. apply Hnd.
  apply in_or_app. right. apply in_or_app. right. now left.
Qed.

Lemma name_toPlayerStats (kv : string * Tally) : name (toPlayerStats kv) = fst kv.
Proof. now destruct kv. Qed.

(** Every entry of the leaderboard is the image of an own property. *)
Lemma leaderboard_entry (data : list GameLog) (e : PlayerStats) :
  In e (fst (computeLeaderboard data)) <->
  exists kv, In kv (playerWins (aggregate data)) /\ toPlayerStats kv = e.
Proof.
  unfold computeLeaderboard, sortedLeaderboard. cbn [fst].
  rewrite In_sort, in_map_iff. split; intros (kv & H1 & H2).
  - exists kv. split; [exact (proj1 (In_entries _ _) H2) | assumption].
  - exists kv. split; [assumption | exact (proj2 (In_entries _ _) H1)].
Qed.

End RankingFacts.

(* ================================================================== *)
(** ** Leaderboard: outcome, counts, ranking *)
(* ================================================================== *)

Module LeaderboardTheorems.
Import JS JSFacts OrderFacts Leaderboard LeaderboardFacts RankingFacts Samples.

Lemma designator_cases (w : string) (o : Outcome) :
  designator w = Some o ->
  truthy w = true
  /\ mkFlags (String.eqb w "green") (String.eqb w "orange") (String.eqb w "draw")
     = flagsOf o.
Proof.
  unfold designator.
  destruct (String.eqb_spec w "green") as [->|Hg]; [intros [= <-]; now split|].
  destruct (String.eqb_spec w "orange") as [->|Ho]; [intros [= <-]; now split|].
  destruct (String.eqb_spec w "draw") as [->|Hd]; [intros [= <-]; now split|].
  discriminate.
Qed.

Lemma outcome_refines (game : GameLog) :
  wellFormedWinner game -> outcome game = option_map flagsOf (specOutcome game).
Proof.
  unfold wellFormedWinner, outcome, specOutcome. intros Hw.
  destruct (green_team_score game) as [g|], (orange_team_score game) as [o|];
    try (destruct (winner game) as [w|]; [|reflexivity];
         destruct (designator w) as [out|] eqn:E; [|contradiction];
         apply designator_cases in E as [-> ->]; reflexivity).
  simpl. rewrite !Z.gtb_ltb.
  destruct (Z.ltb_spec o g), (Z.ltb_spec g o), (Z.eqb_spec g o);
    try lia; reflexivity.
Qed.

(** C2. The outcome of a record follows the stated precedence: with both
    scores present the higher score wins and equal scores are a draw;
    otherwise a winner designator (green, orange or draw), when present, is
    the outcome; in both cases the record is counted (one more game, the
    matching team counter, both rosters).  Otherwise the record is skipped:
    the accumulated player and team counters are left exactly as they
    were. *)
Theorem outcome_precedence (game : GameLog) :
  wellFormedWinner game ->
  outcome game = option_map flagsOf (specOutcome game)
  /\ forall acc : Acc,
       match specOutcome game with
       | Some o =>
           processGame acc game =
           {| playerWins :=
                countRoster (orangeWon (flagsOf o))
                  (countRoster (greenWon (flagsOf o)) (playerWins acc)
                     (green_team_players game))
                  (orange_team_players game);
              teamStats :=
                {| greenWins := bump (greenWon (flagsOf o)) (greenWins (teamStats acc));
                   orangeWins := bump (orangeWon (flagsOf o)) (orangeWins (teamStats acc));
                   draws := bump (isDraw (flagsOf o)) (draws (teamStats acc));
                   totalGames := S (totalGames (teamStats acc)) |} |}
       | None => processGame acc game = acc
       end.
Proof.
  intros Hw. pose proof (outcome_refines game Hw) as H.
  split; [exact H|]. intros acc. unfold processGame. rewrite H.
  now destruct (specOutcome game).
Qed.

Lemma outcome_precedence_witness :
  outcome drawnGame = Some (flagsOf draw)
  /\ outcome specExample = Some (flagsOf sideA)
  /\ processGame initial emptyGame = initial.
Proof.
  assert (Hd : wellFormedWinner drawnGame) by (cbv; discriminate).
  assert (Hs : wellFormedWinner specExample) by exact I.
  assert (He : wellFormedWinner emptyGame) by exact I.
  split; [exact (proj1 (outcome_precedence drawnGame Hd))|].
  split; [exact (proj1 (outcome_precedence specExample Hs))|].
  exact (proj2 (outcome_precedence emptyGame He) initial).
Defined.

(** *** The examples of the specification (section 8) *)

Example empty_history :
  computeLeaderboard []
  = ([], {| greenWins := 0; orangeWins := 0; draws := 0; totalGames := 0 |}).
Proof. reflexivity. Qed.

Example one_record :
  computeLeaderboard [specExample]
  = ([entry "Alice" 1 1 100; entry "Bob" 1 1 100; entry "Carol" 0 1 0],
     {| greenWins := 1; orangeWins := 0; draws := 0; totalGames := 1 |}).
Proof. reflexivity. Qed.

Example record_without_result :
  computeLeaderboard [emptyGame] = computeLeaderboard [].
Proof. reflexivity. Qed.

(** *** Counts *)

Lemma tally_counts (data : list GameLog) (k : string) :
  inherited k = false ->
  gamesOf (playerWins (aggregate data)) k = total (listings k) data
  /\ winsOf (playerWins (aggregate data)) k = total (winningListings k) data.
Proof.
  intros Hk. unfold aggregate.
  now rewrite fold_games, fold_wins by assumption.
Qed.

Lemma teamStats_counts (data : list GameLog) :
  let ts := snd (computeLeaderboard data) in
  greenWins ts = total (flagged greenWon) data
  /\ orangeWins ts = total (flagged orangeWon) data
  /\ draws ts = total (flagged isDraw) data
  /\ totalGames ts = total countedOnce data.
Proof. exact (fold_teamStats data initial). Qed.

(** The entries of the leaderboard carry the counts of their names, and no
    entry carries a name inherited from [Object.prototype]. *)
Lemma leaderboard_counts (data : list GameLog) (e : PlayerStats) :
  In e (fst (computeLeaderboard data)) ->
  inherited (name e) = false
  /\ gamesPlayed e = total (listings (name e)) data
  /\ wins e = total (winningListings (name e)) data.
Proof.
  intros He. apply leaderboard_entry in He as ([k v] & Hin & <-).
  assert (Hk : inherited k = false).
  { apply (in_map fst) in Hin. now apply aggregate_keys_in in Hin. }
  destruct (tally_counts data k Hk) as [Hg Hw].
  apply In_getOwn in Hin; [|apply aggregate_keys_NoDup].
  unfold gamesOf, winsOf in *. rewrite Hin in *. simpl. now repeat split.
Qed.

(** Every name that is not inherited and is listed on a counted record has
    an entry. *)
Lemma leaderboard_has (data : list GameLog) (k : string) :
  inherited k = false ->
  (0 < total (listings k) data)%nat ->
  exists e, In e (fst (computeLeaderboard data)) /\ name e = k.
Proof.
  intros Hk Hpos. destruct (tally_counts data k Hk) as [Hg _].
  unfold gamesOf in Hg.
  destruct (getOwn (playerWins (aggregate data)) k) as [v|] eqn:E; [|lia].
  exists (toPlayerStats (k, v)). split; [|reflexivity].
  apply leaderboard_entry. exists (k, v). split; [now apply getOwn_In | reflexivity].
Qed.

Lemma leaderboard_names_NoDup (data : list GameLog) :
  NoDup (map name (fst (computeLeaderboard data))).
Proof.
  unfold computeLeaderboard, sortedLeaderboard. cbn [fst].
  eapply Permutation_NoDup; [apply Permutation_map, sort_perm|].
  rewrite map_map.
  eapply Permutation_NoDup; [apply Permutation_map, entries_perm|].
  rewrite (map_ext _ fst) by apply name_toPlayerStats.
  apply aggregate_keys_NoDup.
Qed.

(** The leaderboard is the only sorted and stable rearrangement of the
    entries: it does not depend on how the engine sorts. *)
Lemma leaderboard_unique (data : list GameLog) (board : list PlayerStats) :
  let input := map toPlayerStats (entries (playerWins (aggregate data))) in
  Permutation input board ->
  StronglySorted rankedBefore board ->
  (forall x y, before board x y ->
               before input x y \/ after compareStats y x = true) ->
  board = fst (computeLeaderboard data).
Proof.
  intros input Hperm Hsorted Hstable.
  unfold computeLeaderboard, sortedLeaderboard. cbn [fst]. fold input.
  apply stable_sort_unique; try assumption.
  - intros a b Hab. apply after_false_iff.
    destruct (rankedBefore_total a b) as [H|H]; [|assumption].
    apply after_false_iff in H. congruence.
  - intros a b c. unfold mayPrecede. rewrite !after_false_iff.
    apply rankedBefore_trans.
  - apply (NoDup_map_inv name). subst input. rewrite map_map.
    eapply Permutation_NoDup; [apply Permutation_map, entries_perm|].
    rewrite (map_ext _ fst) by apply name_toPlayerStats.
    apply aggregate_keys_NoDup.
  - eapply StronglySorted_impl; [|exact Hsorted].
    intros x y. apply after_false_iff.
Qed.

(** C3, evaluated where it fails.  A player named "constructor" is listed on
    the winning side of a counted record (one listing, one winning listing),
    yet the leaderboard has no entry for that name; the other players and
    the team counters are as claimed. *)
Theorem inherited_name_dropped :
  total (listings "constructor") [constructorGame] = 1%nat
  /\ total (winningListings "constructor") [constructorGame] = 1%nat
  /\ computeLeaderboard [constructorGame]
     = ([entry "Alice" 1 1 100; entry "Carol" 0 1 0],
        {| greenWins := 1; orangeWins := 0; draws := 0; totalGames := 1 |}).
Proof. repeat split. Qed.

(** *** Win rate *)

(** C5, as stated, fails on the specification's own example: Alice has one
    win in one game and her stored win rate is 100, not 1. *)
Lemma winRate_not_a_fraction :
  In (entry "Alice" 1 1 100) (fst (computeLeaderboard [specExample]))
  /\ ~ Forall winRateAsStated (fst (computeLeaderboard [specExample])).
Proof.
  split; [now left|].
  intros H. inversion H as [|e l (_ & _ & _ & Hle) _]; subst.
  revert Hle. vm_compute. intros Hle. now apply Hle.
Qed.

Lemma percent_bounds (w g : nat) :
  (1 <= g)%nat -> (w <= g)%nat ->
  (0 <= inject_Z (Z.of_nat w) / inject_Z (Z.of_nat g) * 100 <= 100)%Q.
Proof.
  intros Hg Hw.
  assert (Hpos : (0 < inject_Z (Z.of_nat g))%Q).
  { change 0%Q with (inject_Z 0). rewrite <- Zlt_Qlt. lia. }
  assert (Hw0 : (0 <= inject_Z (Z.of_nat w))%Q).
  { change 0%Q with (inject_Z 0). rewrite <- Zle_Qle. lia. }
  assert (Hwg : (inject_Z (Z.of_nat w) <= inject_Z (Z.of_nat g))%Q).
  { rewrite <- Zle_Qle. lia. }
  assert (H0 : (0 <= inject_Z (Z.of_nat w) / inject_Z (Z.of_nat g))%Q).
  { apply Qle_shift_div_l; [assumption | lra]. }
  assert (H1 : (inject_Z (Z.of_nat w) / inject_Z (Z.of_nat g) <= 1)%Q).
  { apply Qle_shift_div_r; [assumption | lra]. }
  lra.
Qed.

(** C5 (amended). Every entry stores
    [winRate = (wins / gamesPlayed) * 100] when [gamesPlayed > 0] and [0]
    otherwise: a percentage, in the interval [0, 100]. *)
Theorem winRate_percentage (data : list GameLog) :
  Forall winRatePercent (fst (computeLeaderboard data)).
Proof.
  apply Forall_forall. intros e He.
  apply leaderboard_entry in He as ([k v] & Hin & <-).
  pose proof (aggregate_good data) as Hgood.
  rewrite Forall_forall in Hgood. destruct (Hgood _ Hin) as [Hg Hw]. simpl in Hg, Hw.
  unfold winRatePercent. simpl. split; [reflexivity|].
  destruct (Nat.ltb_spec 0 (t_gamesPlayed v)); [|lia].
  now apply percent_bounds.
Qed.

(** C9. Every entry of the leaderboard has [gamesPlayed >= 1] and
    [wins <= gamesPlayed]; so has every tally of the dictionary the entries
    come from, hence the test [gamesPlayed > 0] of the win-rate derivation
    always succeeds and the quotient is never a division by zero. *)
Theorem games_positive (data : list GameLog) :
  Forall (fun e => (1 <= gamesPlayed e)%nat /\ (wins e <= gamesPlayed e)%nat
                   /\ winRate e
                      = ((inject_Z (Z.of_nat (wins e))
                          / inject_Z (Z.of_nat (gamesPlayed e))) * 100)%Q)
    (fst (computeLeaderboard data))
  /\ Forall (fun kv => (0 <? t_gamesPlayed (snd kv))%nat = true)
       (playerWins (aggregate data)).
Proof.
  pose proof (aggregate_good data) as Hgood.
  rewrite Forall_forall in Hgood. split.
  - apply Forall_forall. intros e He.
    apply leaderboard_entry in He as ([k v] & Hin & <-).
    destruct (Hgood _ Hin) as [Hg Hw]. simpl in Hg, Hw. simpl.
    repeat split; try assumption.
    destruct (Nat.ltb_spec 0 (t_gamesPlayed v)); [reflexivity | lia].
  - apply Forall_forall. intros kv Hin.
    destruct (Hgood _ Hin) as [Hg _]. apply Nat.ltb_lt. lia.
Qed.

(** *** Ranking *)

(** C4, as stated, fails when tied names are numerals: "2" is reached before
    "1" while scanning the record, both have one win in one game, and the
    leaderboard lists "1" in front of "2". *)
Lemma numerals_not_in_encounter_order :
  before (fst (computeLeaderboard [numeralGame]))
    (entry "1" 1 1 100) (entry "2" 1 1 100)
  /\ tie (entry "1" 1 1 100) (entry "2" 1 1 100)
  /\ reachedBefore [numeralGame] "2" "1"
  /\ ~ reachedBefore [numeralGame] "1" "2".
Proof.
  split; [now exists [], [], [entry "Carol" 0 1 0]|].
  split; [repeat split|].
  unfold reachedBefore. simpl. lia.
Qed.

(** C4 (amended). The leaderboard is in descending order by wins, then win
    rate, then games played.  Two entries that tie on the three keys stand in
    the order in which [Object.entries] enumerates the dictionary: names that
    are array indices come first, in ascending numeric order, and all other
    names follow in the order in which the scan of the records first reached
    them. *)
Theorem leaderboard_order (data : list GameLog) :
  let board := fst (computeLeaderboard data) in
  StronglySorted rankedBefore board
  /\ forall a b : PlayerStats,
       before board a b -> tie a b ->
       match arrayIndex (name a), arrayIndex (name b) with
       | Some i, Some j => (i < j)%Z
       | Some _, None => True
       | None, Some _ => False
       | None, None => reachedBefore data (name a) (name b)
       end.
Proof.
  cbv zeta. unfold computeLeaderboard, sortedLeaderboard. cbn [fst].
  split; [apply sort_ranked|].
  intros a b Hab Htie.
  apply sort_stable in Hab as [Hab | Hafter];
    [|rewrite (tie_not_after a b Htie) in Hafter; discriminate].
  apply before_map in Hab as (u & v & Huv & <- & <-).
  rewrite !name_toPlayerStats.
  assert (Hne : fst u <> fst v).
  { apply (before_distinct (map fst (entries (playerWins (aggregate data))))).
    - eapply Permutation_NoDup; [apply Permutation_map, entries_perm|].
      apply aggregate_keys_NoDup.
    - now apply map_before. }
  apply entries_before in Huv.
  destruct (arrayIndex (fst u)) as [i|] eqn:Eu, (arrayIndex (fst v)) as [j|] eqn:Ev;
    try assumption.
  - destruct (Z.eq_dec i j) as [->|Hij]; [|lia].
    exfalso. apply Hne. now apply arrayIndex_inj with j.
  - apply aggregate_keys_order. now apply (map_before fst).
Qed.

Lemma leaderboard_order_witness :
  reachedBefore [specExample] "Alice" "Bob"
  /\ (2 < 10)%Z.
Proof.
  split.
  - refine (proj2 (leaderboard_order [specExample])
              (entry "Alice" 1 1 100) (entry "Bob" 1 1 100) _ _).
    + now exists [], [], [entry "Carol" 0 1 0].
    + repeat split.
  - refine (proj2 (leaderboard_order
                     [Leaderboard.mkGameLog ["10"; "2"]%string [] (Some 1) (Some 0) None])
              (entry "2" 1 1 100) (entry "10" 1 1 100) _ _).
    + now exists [], [], [].
    + repeat split.
Defined.

End LeaderboardTheorems.

(* ================================================================== *)
(** ** SaveGameDialog: what a saved record looks like to the leaderboard *)
(* ================================================================== *)

Module SaveGameDialogTheorems.
Import SaveGameDialog Samples.

Lemma handleSave_record (props : Props) (st : State) (r : Insert) :
  handleSave props st = Some r ->
  green_team_score r
  = (if scoreUnknown st then None else Some (parseInt (greenScore st)))
  /\ orange_team_score r
     = (if scoreUnknown st then None else Some (parseInt (orangeScore st)))
  /\ ins_winner r = (if scoreUnknown st then Some (winner st) else None).
Proof.
  unfold handleSave.
  destruct (negb (scoreUnknown st) && _); [discriminate|].
  destruct ((_ =? 0)%nat || _); [discriminate|].
  intros [= <-]. now repeat split.
Qed.

(** The in-memory record never has a [null] score when the score is known,
    and always has a winner when it is not: what it may have is a score that
    is [NaN]. *)
Lemma handleSave_not_null (props : Props) (st : State) (r : Insert) :
  handleSave props st = Some r ->
  if scoreUnknown st
  then exists w, ins_winner r = Some w
  else green_team_score r <> None /\ orange_team_score r <> None.
Proof.
  intros H. apply handleSave_record in H as (Hg & Ho & Hw).
  destruct (scoreUnknown st).
  - now exists (winner st).
  - rewrite Hg, Ho. split; discriminate.
Qed.

(** A record saved with the winner only, or with two score texts that hold
    integers, is counted by the aggregation. *)
Lemma saved_record_counted (props : Props) (st : State) (r : Insert) :
  handleSave props st = Some r ->
  (scoreUnknown st = false -> parses (greenScore st) /\ parses (orangeScore st)) ->
  Leaderboard.counted (storedRow r) = true.
Proof.
  intros H Hp. apply handleSave_record in H as (Hg & Ho & Hw).
  unfold Leaderboard.counted, Leaderboard.outcome, storedRow. simpl.
  rewrite Hg, Ho, Hw.
  destruct (scoreUnknown st).
  - simpl. now destruct (winner st).
  - destruct (Hp eq_refl) as [H1 H2]. unfold parses, parseInt in *.
    destruct (JS.parseInt (greenScore st)); [|contradiction].
    destruct (JS.parseInt (orangeScore st)); [|contradiction].
    reflexivity.
Qed.

(** C10, evaluated where it fails.  With ".5" typed as the green score the
    guard of [handleSave] lets the save through, the record carries [NaN]
    for the green score and no winner, the stored row has a [null] green
    score and a [null] winner, and the aggregation skips it. *)
Theorem fraction_score_saved_uncounted :
  exists r : Insert,
    handleSave dialogProps fractionTyped = Some r
    /\ green_team_score r = Some NaN
    /\ ins_winner r = None
    /\ Leaderboard.green_team_score (storedRow r) = None
    /\ Leaderboard.winner (storedRow r) = None
    /\ Leaderboard.outcome (storedRow r) = None
    /\ forall acc, Leaderboard.processGame acc (storedRow r) = acc.
Proof. eexists. repeat split. Qed.

Example integer_scores_counted :
  exists r : Insert,
    handleSave dialogProps scoresTyped = Some r
    /\ Leaderboard.counted (storedRow r) = true.
Proof.
  eexists. split; [reflexivity|].
  apply (saved_record_counted dialogProps scoresTyped); [reflexivity|].
  intros _. split; discriminate.
Qed.

Example winner_only_counted :
  exists r : Insert,
    handleSave dialogProps winnerOnly = Some r
    /\ Leaderboard.counted (storedRow r) = true.
Proof.
  eexists. split; [reflexivity|].
  apply (saved_record_counted dialogProps winnerOnly); [reflexivity|].
  discriminate.
Qed.

End SaveGameDialogTheorems.

(* ================================================================== *)
(** ** TeamSelector: the pool, manual moves and the balance of the sides *)
(* ================================================================== *)

Module TeamSelectorMore.
Import JS JSFacts TeamSelector TeamSelectorFacts Samples.

Lemma onTeam_In (t : Team) (q : Player) :
  onTeam t q = true <-> In (id q) (map id (players t)).
Proof.
  unfold onTeam. induction (players t) as [|p l IH]; simpl.
  - split; [discriminate | tauto].
  - destruct (String.eqb_spec (id p) (id q)) as [E|E].
    + split; [intros _; now left | reflexivity].
    + rewrite IH. split; [now right | intros [H|H]; [contradiction | assumption]].
Qed.

Lemma onTeam_app (t : Team) (l1 l2 : list Player) (q : Player) :
  onTeam (withPlayers t (l1 ++ l2)) q
  = onTeam (withPlayers t l1) q || onTeam (withPlayers t l2) q.
Proof.
  unfold onTeam, withPlayers. simpl.
  induction l1 as [|p l1 IH]; simpl; [reflexivity|].
  destruct (String.eqb (id p) (id q)); [reflexivity | exact IH].
Qed.

Lemma onTeam_filtered (t : Team) (p q : Player) :
  onTeam (withPlayers t (filter (otherThan p) (players t))) q
  = onTeam t q && otherThan p q.
Proof.
  unfold onTeam, withPlayers, otherThan. simpl.
  induction (players t) as [|x l IH]; simpl; [reflexivity|].
  destruct (String.eqb_spec (id x) (id p)) as [Exp|Exp]; simpl.
  - destruct (String.eqb_spec (id x) (id q)) as [Exq|Exq]; simpl.
    + rewrite IH. destruct (String.eqb_spec (id q) (id p)) as [E|E].
      * simpl. now rewrite andb_false_r.
      * congruence.
    + exact IH.
  - destruct (String.eqb_spec (id x) (id q)) as [Exq|Exq]; simpl.
    + destruct (String.eqb_spec (id q) (id p)) as [E|E]; [congruence | reflexivity].
    + exact IH.
Qed.

Lemma onTeam_single (t : Team) (p q : Player) :
  onTeam (withPlayers t [p]) q = negb (otherThan p q).
Proof.
  unfold onTeam, withPlayers, otherThan. simpl.
  rewrite (String.eqb_sym (id q) (id p)), negb_involutive.
  now destruct (String.eqb (id p) (id q)).
Qed.

Lemma onTeam_withPlayers (t : Team) (l : list Player) (q : Player) :
  onTeam (withPlayers (withPlayers t l) (players (withPlayers t l))) q
  = onTeam (withPlayers t l) q.
Proof. reflexivity. Qed.

(** The side a player is on after a move. *)
Lemma onTeam_after_move (player : Player) (target t : TeamId) (prev : Teams)
    (q : Player) :
  onTeam (teamOf (movePlayerToTeam player target prev) t) q
  = if otherThan player q
    then onTeam (teamOf prev t) q
    else match target, t with
         | idA, idA | idB, idB => true
         | _, _ => false
         end.
Proof.
  assert (Hsym : otherThan q player = otherThan player q).
  { unfold otherThan. now rewrite String.eqb_sym. }
  destruct target, t; unfold movePlayerToTeam, teamOf, push; cbn [A B];
    try change (withPlayers (withPlayers ?t ?l) ?l') with (withPlayers t l');
    cbn [players withPlayers];
    repeat match goal with
           | |- context [onTeam {| team_id := team_id ?t; team_name := _;
                                   color := _; players := ?l |} q] =>
               change (onTeam {| team_id := team_id t; team_name := team_name t;
                                 color := color t; players := l |} q)
                 with (onTeam (withPlayers t l) q)
           end;
    rewrite ?onTeam_app, ?onTeam_filtered, ?onTeam_single, ?Hsym;
    destruct (otherThan player q); simpl;
    rewrite ?andb_true_r, ?andb_false_r, ?orb_false_r, ?orb_true_r; reflexivity.
Qed.

(** X1. After [movePlayerToTeam] the moved player is on the target team and
    not on the other one, and every player with another id is on exactly the
    teams it was on before. *)
Theorem move_places_player (player : Player) (target : TeamId) (prev : Teams) :
  let next := movePlayerToTeam player target prev in
  onTeam (teamOf next target) player = true
  /\ onTeam (teamOf next (opposite target)) player = false
  /\ forall (q : Player) (t : TeamId),
       id q <> id player ->
       onTeam (teamOf next t) q = onTeam (teamOf prev t) q.
Proof.
  cbv zeta. repeat split.
  - rewrite onTeam_after_move, otherThan_self. now destruct target.
  - rewrite onTeam_after_move, otherThan_self. now destruct target.
  - intros q t Hq. rewrite onTeam_after_move.
    unfold otherThan. destruct (String.eqb_spec (id q) (id player)); [contradiction|].
    reflexivity.
Qed.

Lemma move_places_player_witness :
  onTeam (teamOf (movePlayerToTeam bob idB
                    (movePlayerToTeam alice idA initialTeams)) idA) alice = true.
Proof.
  destruct (move_places_player bob idB (movePlayerToTeam alice idA initialTeams))
    as (_ & _ & H).
  rewrite (H alice idA); [reflexivity | discriminate].
Defined.

Lemma ids_filtered (p : Player) (l : list Player) :
  map id (filter (otherThan p) l)
  = filter (fun i => negb (String.eqb i (id p))) (map id l).
Proof.
  induction l as [|x l IH]; simpl; [reflexivity|].
  unfold otherThan at 1. destruct (String.eqb (id x) (id p)); simpl; now rewrite IH.
Qed.

Lemma assigned_after_move (player : Player) (target : TeamId) (prev : Teams) :
  Permutation (map id (assigned (movePlayerToTeam player target prev)))
    (id player
     :: filter (fun i => negb (String.eqb i (id player))) (map id (assigned prev))).
Proof.
  unfold assigned, movePlayerToTeam, push.
  destruct target; cbn [A B players withPlayers];
    rewrite !map_app, !ids_filtered, filter_app; simpl.
  - rewrite <- app_assoc. simpl. symmetry. apply Permutation_middle.
  - rewrite app_assoc. symmetry. apply Permutation_cons_append.
Qed.

(** X2. [movePlayerToTeam] keeps the assignment free of duplicates: when no
    id occurs twice over the two teams before the move, none does after it;
    and, whatever the teams were, the moved player's id then occurs exactly
    once. *)
Theorem move_keeps_ids_distinct (player : Player) (target : TeamId)
    (prev : Teams) :
  count_occ string_dec
    (map id (assigned (movePlayerToTeam player target prev))) (id player) = 1%nat
  /\ (NoDup (map id (assigned prev)) ->
      NoDup (map id (assigned (movePlayerToTeam player target prev)))).
Proof.
  pose proof (assigned_after_move player target prev) as Hperm.
  assert (Hnot : ~ In (id player)
                   (filter (fun i => negb (String.eqb i (id player)))
                      (map id (assigned prev)))).
  { intros H. apply filter_In in H as [_ H]. now rewrite String.eqb_refl in H. }
  split.
  - rewrite (Permutation_count_occ string_dec) in Hperm. rewrite Hperm.
    simpl. destruct (string_dec (id player) (id player)); [|contradiction].
    f_equal. now apply count_occ_not_In.
  - intros Hnd. eapply Permutation_NoDup; [apply Permutation_sym, Hperm|].
    constructor; [assumption | now apply NoDup_filter].
Qed.

Lemma move_keeps_ids_distinct_witness :
  NoDup (map id (assigned (movePlayerToTeam alice idB
                            (movePlayerToTeam alice idA initialTeams)))).
Proof.
  apply (move_keeps_ids_distinct alice idB (movePlayerToTeam alice idA initialTeams)).
  simpl. repeat constructor. intros [].
Defined.

(** X3. Of two moves of the same player only the last one counts: moving to
    one team and then to a team gives what the second move alone gives. *)
Theorem last_move_wins (player : Player) (first second : TeamId) (prev : Teams) :
  movePlayerToTeam player second (movePlayerToTeam player first prev)
  = movePlayerToTeam player second prev.
Proof.
  destruct first, second; unfold movePlayerToTeam, withPlayers; simpl;
    rewrite ?filter_push_removed, ?filter_idem; reflexivity.
Qed.

Lemma filter_unchanged {T} (f : T -> bool) (l : list T) :
  (forall x, In x l -> f x = true) -> filter f l = l.
Proof.
  induction l as [|x l IH]; simpl; [reflexivity|].
  intros H. rewrite (H x (or_introl eq_refl)). f_equal. apply IH.
  intros y Hy. apply H. now right.
Qed.

Lemma not_onTeam_filter (t : Team) (p : Player) :
  onTeam t p = false -> filter (otherThan p) (players t) = players t.
Proof.
  intros H. apply filter_unchanged. intros x Hx.
  unfold otherThan. apply negb_true_iff.
  destruct (String.eqb_spec (id x) (id p)) as [E|E]; [|reflexivity].
  exfalso. assert (Hin : onTeam t p = true).
  { apply onTeam_In. rewrite <- E. now apply in_map. }
  congruence.
Qed.

(** X4. [removePlayerFromTeam] undoes [movePlayerToTeam]: for a player who
    was on neither team, moving it to a team and removing it again gives back
    the teams as they were, members and order. *)
Theorem remove_undoes_move (player : Player) (target : TeamId) (prev : Teams) :
  onTeam (A prev) player = false ->
  onTeam (B prev) player = false ->
  removePlayerFromTeam player (movePlayerToTeam player target prev) = prev.
Proof.
  intros HA HB.
  apply not_onTeam_filter in HA, HB.
  destruct prev as [[ia na ca pa] [ib nb cb pb]]. simpl in HA, HB.
  destruct target; unfold removePlayerFromTeam, movePlayerToTeam, withPlayers;
    simpl; rewrite ?filter_push_removed, ?filter_idem, HA, HB; reflexivity.
Qed.

Lemma remove_undoes_move_witness :
  removePlayerFromTeam bob
    (movePlayerToTeam bob idA (movePlayerToTeam alice idA initialTeams))
  = movePlayerToTeam alice idA initialTeams.
Proof.
  apply (remove_undoes_move bob idA (movePlayerToTeam alice idA initialTeams));
    reflexivity.
Defined.

Lemma filter_both {T} (f g : T -> bool) (l : list T) :
  filter f (filter g l) = filter (fun x => g x && f x) l.
Proof.
  induction l as [|x l IH]; simpl; [reflexivity|].
  destruct (g x); simpl; [destruct (f x)|]; now rewrite IH.
Qed.

(** X5. The pool after a move: the moved player leaves the list of
    unassigned players and nobody else enters or leaves it. *)
Theorem unassigned_after_move (availablePlayers : list Player)
    (player : Player) (target : TeamId) (prev : Teams) :
  unassignedPlayers availablePlayers (movePlayerToTeam player target prev)
  = filter (otherThan player) (unassignedPlayers availablePlayers prev).
Proof.
  unfold unassignedPlayers. rewrite filter_both. apply filter_ext. intros q.
  pose proof (onTeam_after_move player target idA prev q) as HA.
  pose proof (onTeam_after_move player target idB prev q) as HB.
  cbn [teamOf] in HA, HB. rewrite HA, HB.
  destruct (otherThan player q).
  - now rewrite andb_true_r.
  - rewrite andb_false_r. now destruct target.
Qed.

(** X6. After [clearTeams] both teams are empty and every available player
    is unassigned again, in the order of the available list. *)
Theorem clear_returns_everybody (availablePlayers : list Player) (teams : Teams) :
  assigned (clearTeams teams) = []
  /\ unassignedPlayers availablePlayers (clearTeams teams) = availablePlayers.
Proof.
  split; [reflexivity|].
  unfold unassignedPlayers. now apply filter_unchanged.
Qed.

Lemma Permutation_filter {T} (f : T -> bool) (l l' : list T) :
  Permutation l l' -> Permutation (filter f l) (filter f l').
Proof.
  induction 1 as [|x l l' H IH|x y l|l l' l'' H1 IH1 H2 IH2]; simpl.
  - reflexivity.
  - destruct (f x); [now apply perm_skip | assumption].
  - destruct (f x), (f y); try reflexivity. apply perm_swap.
  - now transitivity (filter f l').
Qed.

Lemma filter_none {T} (f : T -> bool) (l : list T) :
  (forall x, In x l -> f x = false) -> filter f l = [].
Proof.
  induction l as [|x l IH]; simpl; [reflexivity|].
  intros H. rewrite (H x (or_introl eq_refl)). apply IH.
  intros y Hy. apply H. now right.
Qed.

Lemma unassigned_rest (teams : Teams) (rest : list Player) :
  NoDup (map id (assigned teams ++ rest)) ->
  unassignedPlayers (assigned teams ++ rest) teams = rest.
Proof.
  intros Hnd. unfold unassignedPlayers. rewrite filter_app.
  rewrite map_app in Hnd.
  assert (Hon : forall q, negb (onTeam (A teams) q) && negb (onTeam (B teams) q)
                          = negb (existsb (String.eqb (id q)) (map id (assigned teams)))).
  { intros q. unfold assigned. rewrite map_app, existsb_app, negb_orb.
    f_equal; f_equal; apply Bool.eq_true_iff_eq; rewrite onTeam_In, existsb_exists;
      (split; [intros H; exists (id q); split; [assumption | apply String.eqb_refl]
              | intros (i & Hi & E); apply String.eqb_eq in E; now subst]). }
  replace (filter _ (assigned teams)) with (@nil Player).
  - simpl. apply filter_unchanged. intros q Hq. rewrite Hon.
    apply negb_true_iff. destruct (existsb _ _) eqn:E; [|reflexivity].
    exfalso. apply existsb_exists in E as (i & Hi & E).
    apply String.eqb_eq in E. subst i.
    revert Hnd Hi. generalize (map id (assigned teams)). intros ids Hnd Hi.
    induction ids as [|i ids IH]; [contradiction|].
    inversion Hnd as [|? ? Hx Hrest]; subst. destruct Hi as [->|Hi].
    + apply Hx, in_or_app. right. now apply in_map.
    + now apply IH.
  - symmetry. apply filter_none. intros q Hq. rewrite Hon.
    apply negb_false_iff. apply existsb_exists. exists (id q).
    split; [now apply in_map | apply String.eqb_refl].
Qed.

(** X7. [randomizeTeams] loses nobody and duplicates nobody: with pairwise
    distinct ids among the available players, the two teams followed by the
    list of unassigned players are a rearrangement of the available players,
    whatever the team size (a [NaN] included) and whatever the teams were
    before. *)
Theorem randomize_partitions (shuffle : list Player -> list Player)
    (availablePlayers : list Player) (teamSizeNum : option Z) (teams : Teams) :
  (forall l, Permutation l (shuffle l)) ->
  NoDup (map id availablePlayers) ->
  let next := randomizeTeamsNum shuffle availablePlayers teamSizeNum teams in
  Permutation (assigned next ++ unassignedPlayers availablePlayers next)
    availablePlayers.
Proof.
  intros Hperm Hnd next.
  set (S := shuffle availablePlayers).
  assert (Hparts : exists k, assigned next = firstn k S).
  { subst next. unfold randomizeTeamsNum. fold S.
    destruct (teamSizes _ teamSizeNum) as [a b].
    destruct (slices_prefix S a b) as (n & m & HA & HB).
    exists (n + m)%nat. unfold assigned. cbn [A B players withPlayers].
    rewrite HA, HB. symmetry. apply firstn_plus. }
  destruct Hparts as [k Hk].
  assert (HS : S = assigned next ++ skipn k S).
  { rewrite Hk. symmetry. apply firstn_skipn. }
  assert (HndS : NoDup (map id S)).
  { eapply Permutation_NoDup; [apply Permutation_map, Hperm | exact Hnd]. }
  transitivity S; [|apply Permutation_sym, Hperm].
  apply Permutation_trans with (assigned next ++ skipn k S);
    [|rewrite <- HS; reflexivity].
  apply Permutation_app_head.
  transitivity (unassignedPlayers S next).
  - apply Permutation_filter, Hperm.
  - replace (unassignedPlayers S next)
      with (unassignedPlayers (assigned next ++ skipn k S) next)
      by (now rewrite <- HS).
    rewrite unassigned_rest; [reflexivity|].
    now rewrite <- HS.
Qed.

Lemma randomize_partitions_witness :
  Permutation
    (assigned (randomizeTeamsNum (@rev Player) [alice; bob; carol] (Some 1)
                 initialTeams)
     ++ unassignedPlayers [alice; bob; carol]
          (randomizeTeamsNum (@rev Player) [alice; bob; carol] (Some 1)
             initialTeams))
    [alice; bob; carol].
Proof.
  apply (randomize_partitions (@rev Player) [alice; bob; carol] (Some 1)
           initialTeams).
  - intros l. apply Permutation_rev.
  - simpl. repeat constructor; simpl; intuition discriminate.
Defined.

(** X8. For a target size that is not negative the two sides are balanced:
    side A is never longer than side B and at most one shorter, neither side
    exceeds the target, and together they hold [min(total, 2 * target)]
    players, so somebody stays unassigned only when both sides are full. *)
Theorem sides_balanced (shuffle : list Player -> list Player)
    (eligible : list Player) (targetTeamSize : Z) :
  (forall l, Permutation l (shuffle l)) ->
  0 <= targetTeamSize ->
  let a := Z.of_nat (length (fst (assignTeams shuffle eligible targetTeamSize))) in
  let b := Z.of_nat (length (snd (assignTeams shuffle eligible targetTeamSize))) in
  a <= b <= a + 1
  /\ b <= targetTeamSize
  /\ a + b = Z.min (Z.of_nat (length eligible)) (2 * targetTeamSize).
Proof.
  intros Hperm Ht. rewrite assignTeams_slices. cbv zeta. cbn [fst snd].
  pose proof (shuffle_length shuffle eligible Hperm) as Hlen.
  set (total := Z.of_nat (length eligible)) in *.
  assert (Htot : 0 <= total) by (subst total; lia).
  destruct (policySizes_nonneg total targetTeamSize Htot Ht) as [Ha Hb].
  rewrite slice_prefix, slice_next by assumption.
  rewrite !length_firstn, length_skipn, Hlen.
  rewrite policySizes_closed in * by assumption.
  destruct (Z.leb_spec (2 * targetTeamSize) total); cbn [fst snd] in *.
  - subst total. lia.
  - subst total. Z.div_mod_to_equations. lia.
Qed.

Lemma sides_balanced_witness :
  let a := Z.of_nat (length (fst (assignTeams (@rev Player) [alice; bob; carol] 7))) in
  let b := Z.of_nat (length (snd (assignTeams (@rev Player) [alice; bob; carol] 7))) in
  a <= b <= a + 1 /\ b <= 7 /\ a + b = Z.min 3 14.
Proof.
  apply (sides_balanced (@rev Player) [alice; bob; carol] 7).
  - intros l. apply Permutation_rev.
  - lia.
Defined.

End TeamSelectorMore.

(* ================================================================== *)
(** ** Leaderboard: what the result depends on *)
(* ================================================================== *)

Module LeaderboardMore.
Import JS JSFacts OrderFacts Leaderboard LeaderboardFacts RankingFacts.
Import LeaderboardTheorems Samples.

Local Open Scope nat_scope.

Lemma skipped_unchanged (acc : Acc) (game : GameLog) :
  counted game = false -> processGame acc game = acc.
Proof.
  unfold counted, processGame. now destruct (outcome game).
Qed.

Lemma fold_counted (data : list GameLog) (acc : Acc) :
  fold_left processGame (filter counted data) acc = fold_left processGame data acc.
Proof.
  revert acc. induction data as [|game data IH]; intros acc; simpl; [reflexivity|].
  destruct (counted game) eqn:E; simpl.
  - apply IH.
  - rewrite (skipped_unchanged acc game E). apply IH.
Qed.

(** X9. Records with neither both scores nor a winner have no effect at all:
    the leaderboard and the team statistics of a history are those of the
    history without its skipped records. *)
Theorem skipped_records_ignored (data : list GameLog) :
  computeLeaderboard data = computeLeaderboard (filter counted data).
Proof.
  unfold computeLeaderboard, aggregate. now rewrite fold_counted.
Qed.

(** The leaderboard as a set: which entries it holds. *)
Lemma board_entries (data : list GameLog) (e : PlayerStats) :
  In e (fst (computeLeaderboard data)) <->
  inherited (name e) = false
  /\ 0 < total (listings (name e)) data
  /\ e = toPlayerStats
           (name e, {| t_wins := total (winningListings (name e)) data;
                       t_gamesPlayed := total (listings (name e)) data |}).
Proof.
  split.
  - intros He. destruct (leaderboard_counts data e He) as (Hk & Hg & Hw).
    split; [assumption|].
    apply leaderboard_entry in He as ([k v] & Hin & <-).
    pose proof (aggregate_good data) as Hgood.
    rewrite Forall_forall in Hgood. destruct (Hgood _ Hin) as [Hpos _].
    simpl in *. split; [lia|]. rewrite <- Hg, <- Hw. now destruct v.
  - intros (Hk & Hpos & He).
    destruct (leaderboard_has data (name e) Hk Hpos) as (e' & Hin & Hname).
    destruct (leaderboard_counts data e' Hin) as (_ & Hg & Hw).
    rewrite Hname in Hg, Hw.
    assert (e' = e); [|now subst].
    rewrite He. apply leaderboard_entry in Hin as ([k v] & _ & <-).
    simpl in *. subst k. destruct v as [w g]. simpl in *. now subst.
Qed.

(** X10. Every name that is not a property of [Object.prototype] and is
    listed on a counted record has exactly one entry; its [gamesPlayed] is
    the number of its roster listings on counted records and its [wins] the
    number of its listings on winning sides.  No other name has an entry. *)
Theorem entries_count_listings (data : list GameLog) :
  let board := fst (computeLeaderboard data) in
  NoDup (map name board)
  /\ (forall e, In e board ->
        inherited (name e) = false
        /\ gamesPlayed e = total (listings (name e)) data
        /\ wins e = total (winningListings (name e)) data
        /\ 0 < total (listings (name e)) data)
  /\ (forall player,
        inherited player = false -> 0 < total (listings player) data ->
        exists e, In e board /\ name e = player).
Proof.
  cbv zeta. split; [apply leaderboard_names_NoDup|]. split.
  - intros e He. destruct (leaderboard_counts data e He) as (Hk & Hg & Hw).
    apply board_entries in He as (_ & Hpos & _). now repeat split.
  - intros player Hk Hpos. now apply leaderboard_has.
Qed.

Lemma entries_count_listings_witness :
  exists e, In e (fst (computeLeaderboard [specExample; drawnGame]))
            /\ name e = "Carol"%string.
Proof.
  destruct (entries_count_listings [specExample; drawnGame]) as (_ & _ & H).
  apply (H "Carol"%string); [reflexivity | simpl; lia].
Defined.

(** *** The order of the rows *)

Lemma total_perm (f : GameLog -> nat) (data data' : list GameLog) :
  Permutation data data' -> total f data = total f data'.
Proof.
  induction 1; simpl; lia.
Qed.

Lemma teamStats_eta (ts ts' : TeamStats) :
  greenWins ts = greenWins ts' -> orangeWins ts = orangeWins ts' ->
  draws ts = draws ts' -> totalGames ts = totalGames ts' -> ts = ts'.
Proof. destruct ts, ts'; simpl; intros; now subst. Qed.

(** X11. The query of [loadLeaderboard] asks for no order of the rows, and
    none is needed for the counts: two histories that hold the same records
    in a different order give the same team statistics and the same
    leaderboard entries (only the order of tied entries may differ). *)
Theorem row_order_irrelevant (data data' : list GameLog) :
  Permutation data data' ->
  snd (computeLeaderboard data) = snd (computeLeaderboard data')
  /\ Permutation (fst (computeLeaderboard data)) (fst (computeLeaderboard data')).
Proof.
  intros Hperm. split.
  - destruct (teamStats_counts data) as (Hg & Ho & Hd & Ht).
    destruct (teamStats_counts data') as (Hg' & Ho' & Hd' & Ht').
    apply teamStats_eta;
      rewrite ?Hg, ?Ho, ?Hd, ?Ht, ?Hg', ?Ho', ?Hd', ?Ht'; now apply total_perm.
  - apply NoDup_Permutation.
    + apply (NoDup_map_inv name), leaderboard_names_NoDup.
    + apply (NoDup_map_inv name), leaderboard_names_NoDup.
    + intros e. rewrite !board_entries.
      now rewrite !(total_perm _ data data' Hperm).
Qed.

Lemma row_order_irrelevant_witness :
  snd (computeLeaderboard [specExample; drawnGame])
  = snd (computeLeaderboard [drawnGame; specExample])
  /\ Permutation (fst (computeLeaderboard [specExample; drawnGame]))
       (fst (computeLeaderboard [drawnGame; specExample])).
Proof.
  apply (row_order_irrelevant [specExample; drawnGame] [drawnGame; specExample]).
  apply perm_swap.
Defined.

(** *** The team counters *)

Lemma one_flag (game : GameLog) :
  flagged greenWon game + flagged orangeWon game + flagged isDraw game
  <= countedOnce game
  /\ (wellFormedWinner game ->
      flagged greenWon game + flagged orangeWon game + flagged isDraw game
      = countedOnce game).
Proof.
  unfold flagged, countedOnce, counted, wellFormedWinner, outcome.
  destruct (green_team_score game) as [g|], (orange_team_score game) as [o|];
    try (destruct (winner game) as [w|]; [|simpl; lia];
         unfold designator;
         destruct (truthy w) eqn:Ew; [|destruct w; [|discriminate]; simpl; split;
                                        [lia | intros H; now contradiction H]];
         simpl;
         destruct (String.eqb_spec w "green") as [->|Hg];
         [simpl; lia|];
         destruct (String.eqb_spec w "orange") as [->|Ho];
         [simpl; lia|];
         destruct (String.eqb_spec w "draw") as [->|Hd];
         [simpl; lia|];
         simpl; split; [lia | intros H; now contradiction H]).
  simpl. rewrite !Z.gtb_ltb.
  destruct (Z.ltb_spec o g), (Z.ltb_spec g o), (Z.eqb_spec g o); simpl; lia.
Qed.

Lemma counters_sum (data : list GameLog) :
  let ts := snd (computeLeaderboard data) in
  greenWins ts + orangeWins ts + draws ts <= totalGames ts
  /\ (Forall wellFormedWinner data ->
      greenWins ts + orangeWins ts + draws ts = totalGames ts).
Proof.
  cbv zeta. destruct (teamStats_counts data) as (Hg & Ho & Hd & Ht).
  rewrite Hg, Ho, Hd, Ht. clear.
  induction data as [|game data [IH1 IH2]]; simpl.
  - split; [lia | reflexivity].
  - destruct (one_flag game) as [H1 H2]. split; [lia|].
    intros Hwf. inversion Hwf as [|? ? Hgame Hrest]; subst.
    specialize (H2 Hgame). specialize (IH2 Hrest). lia.
Qed.

(** X12. The three team counters never exceed the number of counted games,
    and they add up to it when every record's winner is null or one of
    green, orange and draw. *)
Theorem team_counters_add_up (data : list GameLog) :
  let ts := snd (computeLeaderboard data) in
  greenWins ts + orangeWins ts + draws ts <= totalGames ts
  /\ (Forall wellFormedWinner data ->
      greenWins ts + orangeWins ts + draws ts = totalGames ts).
Proof. exact (counters_sum data). Qed.

Lemma team_counters_add_up_witness :
  let ts := snd (computeLeaderboard [specExample; drawnGame; emptyGame]) in
  greenWins ts + orangeWins ts + draws ts = totalGames ts.
Proof.
  apply (team_counters_add_up [specExample; drawnGame; emptyGame]).
  repeat constructor. cbv. discriminate.
Defined.

Example odd_winner_counted_without_result :
  snd (computeLeaderboard [oddWinnerGame])
  = {| greenWins := 0; orangeWins := 0; draws := 0; totalGames := 1 |}.
Proof. reflexivity. Qed.

(** *** The win ratio bar *)









Example bar_of_two_games :
  barWidths (snd (computeLeaderboard [specExample; drawnGame]))
  = [Some (percentage 1 2); Some (percentage 1 2)].
Proof. reflexivity. Qed.

End LeaderboardMore.

(* ================================================================== *)
(** ** GameHistory and SaveGameDialog against the leaderboard *)
(* ================================================================== *)

Module HistoryAndSaving.
Import Samples.

(** X14. [GameHistory] and [Leaderboard] agree on a game with both scores:
    exactly one of "green won", "orange won" and "tie" is shown and it is the
    outcome the leaderboard counts.  For a game without both scores the
    history shows no winner and no tie, whatever the leaderboard counts from
    the winner column. *)
Theorem history_outcome (h : GameHistory.GameLog) (l : Leaderboard.GameLog) :
  GameHistory.green_team_score h = Leaderboard.green_team_score l ->
  GameHistory.orange_team_score h = Leaderboard.orange_team_score l ->
  match GameHistory.green_team_score h, GameHistory.orange_team_score h with
  | Some _, Some _ =>
      Leaderboard.outcome l
      = Some (Leaderboard.mkFlags (GameHistory.greenWon h)
                (GameHistory.orangeWon h) (GameHistory.isTie h))
      /\ (Nat.b2n (GameHistory.greenWon h) + Nat.b2n (GameHistory.orangeWon h)
          + Nat.b2n (GameHistory.isTie h) = 1)%nat
  | _, _ =>
      GameHistory.greenWon h = false /\ GameHistory.orangeWon h = false
      /\ GameHistory.isTie h = false
  end.
Proof.
  unfold GameHistory.greenWon, GameHistory.orangeWon, GameHistory.isTie,
    Leaderboard.outcome.
  intros Hg Ho. rewrite <- Hg, <- Ho.
  destruct (GameHistory.green_team_score h) as [g|],
           (GameHistory.orange_team_score h) as [o|]; try now repeat split.
  split; [reflexivity|].
  rewrite !Z.gtb_ltb.
  destruct (Z.ltb_spec o g), (Z.ltb_spec g o), (Z.eqb_spec g o); simpl; lia.
Qed.

Lemma history_outcome_witness :
  (GameHistory.greenWon historyRow = false
   /\ GameHistory.orangeWon historyRow = false
   /\ GameHistory.isTie historyRow = false)
  /\ Leaderboard.outcome leaderboardRow = Some (Leaderboard.flagsOf Leaderboard.sideA).
Proof.
  split; [|reflexivity].
  exact (history_outcome historyRow leaderboardRow eq_refl eq_refl).
Defined.

Import SaveGameDialog.







End HistoryAndSaving.

(* ================================================================== *)
(** ** The roster hook, its switches and the lists derived from it *)
(* ================================================================== *)

Module RosterFacts.
Import TeamSelector UsePlayers Samples.

Lemma player_eta (p : Player) :
  mkPlayer (id p) (name p) (TeamSelector.isIn p) (TeamSelector.hasPaid p) = p.
Proof. now destruct p. Qed.

Lemma map_unchanged {T} (f : T -> T) (l : list T) :
  (forall x, In x l -> f x = x) -> map f l = l.
Proof.
  induction l as [|x l IH]; simpl; [reflexivity|].
  intros H. rewrite (H x (or_introl eq_refl)). f_equal. apply IH.
  intros y Hy. apply H. now right.
Qed.

Lemma update_absent_id (i : string) (updates : Updates) (l : list Player) :
  ~ In i (map id l) -> updatePlayer true i updates l = l.
Proof.
  intros H. unfold updatePlayer. apply map_unchanged. intros x Hx.
  destruct (String.eqb_spec (id x) i) as [E|E]; [|reflexivity].
  exfalso. apply H. rewrite <- E. now apply in_map.
Qed.

Lemma find_absent_id (i : string) (l : list Player) :
  ~ In i (map id l) -> find (fun p => String.eqb (id p) i) l = None.
Proof.
  induction l as [|x l IH]; simpl; [reflexivity|].
  intros H. destruct (String.eqb_spec (id x) i) as [E|E].
  - exfalso. apply H. now left.
  - apply IH. intros Hin. apply H. now right.
Qed.

Lemma click_other_head (i : string) (field : PlayerManager.Field)
    (x : Player) (l : list Player) :
  id x <> i ->
  PlayerManager.clickSwitch true true i field (x :: l)
  = x :: PlayerManager.clickSwitch true true i field l.
Proof.
  intros Hx. unfold PlayerManager.clickSwitch, PlayerManager.togglePlayerStatus.
  simpl. destruct (String.eqb_spec (id x) i) as [E|_]; [contradiction|].
  destruct (find (fun p => String.eqb (id p) i) l); simpl.
  - destruct (String.eqb_spec (id x) i) as [E|_]; [contradiction | reflexivity].
  - reflexivity.
Qed.

Lemma click_head (i : string) (field : PlayerManager.Field)
    (x : Player) (l : list Player) :
  id x = i -> ~ In i (map id l) ->
  PlayerManager.clickSwitch true true i field (x :: l)
  = match field with
    | PlayerManager.isIn =>
        mkPlayer (id x) (name x) (negb (TeamSelector.isIn x)) (TeamSelector.hasPaid x)
    | PlayerManager.hasPaid =>
        mkPlayer (id x) (name x) (TeamSelector.isIn x) (negb (TeamSelector.hasPaid x))
    end :: l.
Proof.
  intros Hx Hl. subst i.
  unfold PlayerManager.clickSwitch, PlayerManager.togglePlayerStatus.
  cbn [negb find]. rewrite String.eqb_refl.
  pose proof (update_absent_id (id x)) as Hu. unfold updatePlayer in Hu.
  destruct field; unfold updatePlayer; cbn [map];
    rewrite String.eqb_refl, Hu by assumption; reflexivity.
Qed.

(** X17. A switch is an involution: for an administrator whose requests
    succeed, and a roster with pairwise distinct ids, clicking the same
    switch of the same player twice gives back the roster as it was.  A click
    by somebody who is not an administrator, or on an id that is not in the
    roster, changes nothing. *)
Theorem switch_twice (i : string) (field : PlayerManager.Field)
    (players : list Player) :
  (NoDup (map id players) ->
   PlayerManager.clickSwitch true true i field
     (PlayerManager.clickSwitch true true i field players) = players)
  /\ (forall ok, PlayerManager.clickSwitch false ok i field players = players)
  /\ (~ In i (map id players) ->
      forall ok, PlayerManager.clickSwitch true ok i field players = players).
Proof.
  split; [|split].
  - induction players as [|x l IH]; intros Hnd; [reflexivity|].
    inversion Hnd as [|? ? Hx Hl]; subst.
    destruct (String.eqb_spec (id x) i) as [E|E].
    + subst i. rewrite (click_head (id x) field x l eq_refl Hx).
      rewrite click_head; [|destruct field; reflexivity | assumption].
      destruct field; simpl; rewrite negb_involutive; now rewrite player_eta.
    + rewrite !click_other_head by assumption. f_equal. now apply IH.
  - intros ok. reflexivity.
  - intros Hi ok. unfold PlayerManager.clickSwitch, PlayerManager.togglePlayerStatus.
    simpl. now rewrite find_absent_id.
Qed.

Lemma switch_twice_witness :
  PlayerManager.clickSwitch true true "p2" PlayerManager.isIn
    (PlayerManager.clickSwitch true true "p2" PlayerManager.isIn roster) = roster
  /\ PlayerManager.clickSwitch true true "p9" PlayerManager.hasPaid roster = roster.
Proof.
  destruct (switch_twice "p2" PlayerManager.isIn roster) as (H & _ & _).
  destruct (switch_twice "p9" PlayerManager.hasPaid roster) as (_ & _ & H').
  split.
  - apply H. simpl. repeat constructor; simpl; intuition discriminate.
  - apply H'. simpl. intuition discriminate.
Defined.

(** X18. After a successful [clearAllSelections] nobody is attending and
    nobody has paid, while the ids and names of the roster are unchanged,
    in the same order; clearing again changes nothing. *)
Theorem clear_all_selections (prev : list Player) :
  let next := clearAllSelections true prev in
  Index.attendingPlayers next = []
  /\ Index.paidPlayers next = []
  /\ Index.unpaidPlayers next = []
  /\ map id next = map id prev
  /\ map name next = map name prev
  /\ clearAllSelections true next = next.
Proof.
  cbv zeta. unfold clearAllSelections, Index.paidPlayers, Index.unpaidPlayers,
    Index.attendingPlayers.
  assert (Hnone : filter TeamSelector.isIn
                    (map (fun p => mkPlayer (id p) (name p) false false) prev) = []).
  { induction prev as [|p l IH]; simpl; [reflexivity | exact IH]. }
  rewrite Hnone. repeat split.
  - rewrite map_map. now apply map_ext.
  - rewrite map_map. now apply map_ext.
  - rewrite map_map. now apply map_ext.
Qed.

(** X19. A player who was just added can be removed again: when the id of
    the inserted row is not yet in the roster, a successful [removePlayer] of
    that id after the [addPlayer] gives back the roster as it was.  When
    either request fails, that operation leaves the roster alone. *)
Theorem remove_undoes_add (data : Row) (prev : list Player) :
  ~ In (row_id data) (map id prev) ->
  removePlayer true (row_id data) (addPlayer (Some data) prev) = prev
  /\ addPlayer None prev = prev
  /\ removePlayer false (row_id data) prev = prev.
Proof.
  intros Hfresh. repeat split.
  unfold removePlayer, addPlayer. rewrite filter_app. simpl.
  rewrite String.eqb_refl. simpl. rewrite app_nil_r.
  apply TeamSelectorMore.filter_unchanged. intros x Hx.
  apply negb_true_iff. destruct (String.eqb_spec (id x) (row_id data)) as [E|E];
    [|reflexivity].
  exfalso. apply Hfresh. rewrite <- E. now apply in_map.
Qed.

Lemma remove_undoes_add_witness :
  removePlayer true "p4" (addPlayer (Some daveRow) roster) = roster.
Proof.
  apply (remove_undoes_add daveRow roster). simpl. intuition discriminate.
Defined.

Lemma ids_after_update (i : string) (updates : Updates) (l : list Player) :
  u_id updates = None -> map id (updatePlayer true i updates l) = map id l.
Proof.
  intros Hu. unfold updatePlayer. rewrite map_map. apply map_ext.
  intros p. destruct (String.eqb (id p) i); [|reflexivity].
  unfold merge. now rewrite Hu.
Qed.

(** X20. The operations of the hook keep the ids of the roster pairwise
    distinct: loading rows with distinct ids, adding a row whose id is new,
    removing, updating without an [id] key, and clearing the selections. *)
Theorem roster_ids_stay_distinct (prev : list Player) :
  NoDup (map id prev) ->
  (forall rows, NoDup (map row_id rows) ->
                NoDup (map id (loadPlayers (Some (Some rows)) prev)))
  /\ (forall data, ~ In (row_id data) (map id prev) ->
                   NoDup (map id (addPlayer (Some data) prev)))
  /\ (forall ok i, NoDup (map id (removePlayer ok i prev)))
  /\ (forall ok i updates, u_id updates = None ->
                           NoDup (map id (updatePlayer ok i updates prev)))
  /\ (forall ok, NoDup (map id (clearAllSelections ok prev))).
Proof.
  intros Hnd. repeat split.
  - intros rows Hrows. simpl. rewrite map_map. exact Hrows.
  - intros data Hfresh. simpl. rewrite map_app. simpl.
    apply NoDup_app; [assumption | repeat constructor; intros [] |].
    intros x Hx [<-|[]]. contradiction.
  - intros [] i; simpl; [|assumption].
    assert (H : map id (filter (fun p => negb (String.eqb (id p) i)) prev)
                = filter (fun j => negb (String.eqb j i)) (map id prev)).
    { clear. induction prev as [|p l IH]; simpl; [reflexivity|].
      destruct (String.eqb (id p) i); simpl; now rewrite IH. }
    rewrite H. now apply NoDup_filter.
  - intros [] i updates Hu; [|assumption]. now rewrite ids_after_update.
  - intros []; simpl; [|assumption]. rewrite map_map. exact Hnd.
Qed.

Lemma roster_ids_stay_distinct_witness :
  NoDup (map id (addPlayer (Some daveRow) roster))
  /\ NoDup (map id (updatePlayer true "p1" (mkUpdates None None (Some false) None)
                      roster)).
Proof.
  assert (Hnd : NoDup (map id roster))
    by (simpl; repeat constructor; simpl; intuition discriminate).
  destruct (roster_ids_stay_distinct roster Hnd) as (_ & Hadd & _ & Hupd & _).
  split.
  - apply Hadd. simpl. intuition discriminate.
  - now apply Hupd.
Defined.



(** X22. The three numbers of the dashboard add up: every attending player
    is counted either as paid or as still to pay, never both, and the two
    lists hold attending players only. *)
Theorem paid_and_unpaid (players : list Player) :
  (length (Index.paidPlayers players) + length (Index.unpaidPlayers players)
   = length (Index.attendingPlayers players))%nat
  /\ Permutation (Index.paidPlayers players ++ Index.unpaidPlayers players)
       (Index.attendingPlayers players)
  /\ (forall p, In p (Index.paidPlayers players) ->
                ~ In p (Index.unpaidPlayers players))
  /\ (forall p, In p (Index.paidPlayers players ++ Index.unpaidPlayers players) ->
                In p players /\ TeamSelector.isIn p = true).
Proof.
  assert (Hperm : forall l : list Player,
            Permutation (filter TeamSelector.hasPaid l
                         ++ filter (fun p => negb (TeamSelector.hasPaid p)) l) l).
  { induction l as [|p l IH]; simpl; [reflexivity|].
    destruct (TeamSelector.hasPaid p); simpl.
    - now apply perm_skip.
    - symmetry. apply Permutation_cons_app. now symmetry. }
  unfold Index.paidPlayers, Index.unpaidPlayers.
  split; [|split; [|split]].
  - rewrite <- length_app. apply Permutation_length, Hperm.
  - apply Hperm.
  - intros p Hp Hq. apply filter_In in Hp as [_ Hp], Hq as [_ Hq].
    rewrite Hp in Hq. discriminate.
  - intros p Hp. apply (Permutation_in p (Hperm _)) in Hp.
    now apply filter_In in Hp.
Qed.

End RosterFacts.

(* ================================================================== *)
(** ** The displayed roster and the shared assignment *)
(* ================================================================== *)

Module SharedTeamsFacts.
Import JS OrderFacts TeamSelector UsePlayers Samples.

Section Display.
Variable localeCompare : string -> string -> Z.
Hypothesis collation : PlayerManager.consistent localeCompare.

Lemma mayPrecede_cases (a b : Player) :
  mayPrecede (PlayerManager.comparePlayers localeCompare) a b <->
  (TeamSelector.isIn a = true /\ TeamSelector.isIn b = false)
  \/ (TeamSelector.isIn a = TeamSelector.isIn b
      /\ localeCompare (name a) (name b) <= 0).
Proof.
  unfold mayPrecede, after, PlayerManager.comparePlayers.
  rewrite negb_false_iff, Qle_bool_iff.
  destruct (TeamSelector.isIn a), (TeamSelector.isIn b); simpl.
  - rewrite <- (Zle_Qle _ 0). intuition discriminate.
  - split; [intros _; now left | intros _; discriminate].
  - split; [intros H; exfalso; now apply H | intuition discriminate].
  - rewrite <- (Zle_Qle _ 0). intuition discriminate.
Qed.

Lemma cmp_total (a b : Player) :
  after (PlayerManager.comparePlayers localeCompare) a b = true ->
  mayPrecede (PlayerManager.comparePlayers localeCompare) b a.
Proof.
  intros H. apply mayPrecede_cases.
  assert (Hn : ~ mayPrecede (PlayerManager.comparePlayers localeCompare) a b)
    by (unfold mayPrecede; congruence).
  rewrite mayPrecede_cases in Hn. destruct collation as [Hanti _].
  destruct (TeamSelector.isIn a) eqn:Ea, (TeamSelector.isIn b) eqn:Eb.
  - right. split; [reflexivity|]. apply Hanti.
    destruct (Z.le_gt_cases (localeCompare (name a) (name b)) 0); [|lia].
    exfalso. apply Hn. now right.
  - exfalso. apply Hn. now left.
  - now left.
  - right. split; [reflexivity|]. apply Hanti.
    destruct (Z.le_gt_cases (localeCompare (name a) (name b)) 0); [|lia].
    exfalso. apply Hn. now right.
Qed.

Lemma cmp_trans (a b c : Player) :
  mayPrecede (PlayerManager.comparePlayers localeCompare) a b ->
  mayPrecede (PlayerManager.comparePlayers localeCompare) b c ->
  mayPrecede (PlayerManager.comparePlayers localeCompare) a c.
Proof.
  rewrite !mayPrecede_cases. destruct collation as [_ Htrans].
  intros [[H1 H2] | [H1 H2]] [[H3 H4] | [H3 H4]]; try congruence.
  - left. split; congruence.
  - left. split; congruence.
  - right. split; [congruence|]. now apply Htrans with (name b).
Qed.

(** X23. The roster is displayed with the attending players first: the
    displayed list is a rearrangement of the roster in which no player who
    is out stands in front of a player who is in, and two players with the
    same attendance stand in the order of their names under the collation,
    whatever consistent collation the locale provides. *)
Theorem attending_first (players : list Player) :
  let shown := PlayerManager.sortedPlayers localeCompare players in
  Permutation players shown
  /\ forall a b,
       Leaderboard.before shown a b ->
       (TeamSelector.isIn b = true -> TeamSelector.isIn a = true)
       /\ (TeamSelector.isIn a = TeamSelector.isIn b ->
           localeCompare (name a) (name b) <= 0).
Proof.
  cbv zeta. unfold PlayerManager.sortedPlayers.
  split; [apply sort_perm|].
  intros a b Hab.
  apply (before_sorted (mayPrecede (PlayerManager.comparePlayers localeCompare))) in Hab;
    [|apply sort_sorted; [apply cmp_total | apply cmp_trans]].
  apply mayPrecede_cases in Hab as [[H1 H2] | [H1 H2]].
  - split; [congruence | congruence].
  - split; [congruence | intros _; assumption].
Qed.

End Display.

Lemma byLength_consistent : PlayerManager.consistent byLength.
Proof. unfold PlayerManager.consistent, byLength. split; intros; lia. Qed.

Lemma attending_first_witness :
  byLength (name bob) (name alice) <= 0.
Proof.
  refine (proj2 (proj2 (attending_first byLength byLength_consistent
                          [dave; alice; bob]) bob alice _) eq_refl).
  now exists [], [], [dave].
Defined.

Example shown_roster :
  PlayerManager.sortedPlayers byLength [dave; alice; bob] = [bob; alice; dave].
Proof. reflexivity. Qed.

Import UseCurrentTeams.

Lemma includes_In (ids : list string) (x : string) :
  includes ids x = true <-> In x ids.
Proof.
  unfold includes. rewrite existsb_exists. split.
  - intros (y & Hy & E). apply String.eqb_eq in E. now subst.
  - intros H. exists x. split; [assumption | apply String.eqb_refl].
Qed.

Lemma NoDup_of_ids (l : list Player) : NoDup (map id l) -> NoDup l.
Proof. apply NoDup_map_inv. Qed.

Lemma id_injective (l : list Player) (p q : Player) :
  NoDup (map id l) -> In p l -> In q l -> id p = id q -> p = q.
Proof.
  induction l as [|x l IH]; simpl; [tauto|].
  intros Hnd Hp Hq E. inversion Hnd as [|? ? Hx Hl]; subst.
  destruct Hp as [<-|Hp], Hq as [<-|Hq].
  - reflexivity.
  - exfalso. apply Hx. rewrite E. now apply in_map.
  - exfalso. apply Hx. rewrite <- E. now apply in_map.
  - now apply IH.
Qed.

Lemma hydrate_team (allPlayers team : list Player) :
  NoDup (map id allPlayers) -> NoDup team -> incl team allPlayers ->
  Permutation (filter (fun p => includes (map id team) (id p)) allPlayers) team.
Proof.
  intros Hall Hteam Hincl. apply NoDup_Permutation.
  - apply NoDup_filter. now apply NoDup_of_ids.
  - assumption.
  - intros p. rewrite filter_In, includes_In, in_map_iff. split.
    + intros (Hp & q & E & Hq).
      assert (q = p) as <- by (apply (id_injective allPlayers); auto).
      assumption.
    + intros Hp. split; [now apply Hincl | now exists p].
Qed.

(** X24. Saving the teams and loading them again keeps every side's members
    and the team size: when the saved players are roster players, listed
    once each, and ids of the roster are pairwise distinct, each loaded side
    is a rearrangement of the saved side (it is listed in roster order). *)
Theorem save_then_load (allPlayers newA newB : list Player) (size : Z)
    (table : option Row) :
  NoDup (map id allPlayers) ->
  NoDup newA -> NoDup newB ->
  incl newA allPlayers -> incl newB allPlayers ->
  let saved := saveTeams true newA newB size table in
  let loaded := loadTeams allPlayers (Some (snd saved)) (fst saved) in
  Permutation (teamA loaded) newA
  /\ Permutation (teamB loaded) newB
  /\ teamSize loaded = size.
Proof.
  intros Hall HA HB HinA HinB. cbv zeta. simpl.
  repeat split; now apply hydrate_team.
Qed.

Lemma save_then_load_witness :
  let saved := saveTeams true [carol] [bob; alice] 7 None in
  let loaded := loadTeams roster (Some (snd saved)) (fst saved) in
  Permutation (teamA loaded) [carol]
  /\ Permutation (teamB loaded) [bob; alice]
  /\ teamSize loaded = 7.
Proof.
  apply (save_then_load roster [carol] [bob; alice] 7 None).
  - simpl. repeat constructor; simpl; intuition discriminate.
  - repeat constructor; simpl; intuition discriminate.
  - repeat constructor; simpl; intuition discriminate.
  - intros p [<-|[]]. unfold roster. simpl. tauto.
  - intros p [<-|[<-|[]]]; unfold roster; simpl; tauto.
Defined.

Example loaded_in_roster_order :
  teamB (loadTeams roster (Some (Some (teamData [carol] [bob; alice] 7)))
           UseCurrentTeams.initialTeams)
  = [alice; bob].
Proof. reflexivity. Qed.

(** X25. Whatever row is loaded, the loaded sides hold roster players only;
    and when the roster's ids are pairwise distinct and no id is stored on
    both sides, no player is loaded twice, on one side or across the two. *)
Theorem loaded_sides_disjoint (allPlayers : list Player) (data : Row)
    (prev : CurrentTeams) :
  let loaded := loadTeams allPlayers (Some (Some data)) prev in
  incl (teamA loaded ++ teamB loaded) allPlayers
  /\ (NoDup (map id allPlayers) ->
      (forall i, In i (team_a_player_ids data) ->
                 ~ In i (team_b_player_ids data)) ->
      NoDup (map id (teamA loaded ++ teamB loaded))).
Proof.
  cbv zeta. simpl. split.
  - intros p Hp. apply in_app_or in Hp as [Hp|Hp]; now apply filter_In in Hp.
  - intros Hall Hdisj.
    set (fa := fun p => includes (team_a_player_ids data) (id p)).
    set (fb := fun p => includes (team_b_player_ids data) (id p)).
    assert (Hsub : forall f : Player -> bool,
              NoDup (map id (filter f allPlayers))).
    { intros f. clear -Hall. induction allPlayers as [|x l IH]; simpl; [constructor|].
      inversion Hall as [|? ? Hx Hl]; subst.
      destruct (f x); simpl; [|now apply IH].
      constructor; [|now apply IH].
      intros Hin. apply Hx. apply in_map_iff in Hin as (q & E & Hq).
      apply filter_In in Hq as [Hq _]. rewrite <- E. now apply in_map. }
    rewrite map_app. apply NoDup_app; [apply Hsub | apply Hsub |].
    intros i Ha Hb.
    apply in_map_iff in Ha as (p & <- & Hp). apply filter_In in Hp as [_ Hp].
    apply in_map_iff in Hb as (q & E & Hq). apply filter_In in Hq as [_ Hq].
    unfold fa in Hp. unfold fb in Hq. apply includes_In in Hp, Hq.
    rewrite E in Hq. now apply (Hdisj (id p)).
Qed.

Lemma loaded_sides_disjoint_witness :
  NoDup (map id (teamA (loadTeams roster
                          (Some (Some (mkRow ["p3"; "p9"]%string ["p1"]%string 7)))
                          UseCurrentTeams.initialTeams)
                 ++ teamB (loadTeams roster
                             (Some (Some (mkRow ["p3"; "p9"]%string ["p1"]%string 7)))
                             UseCurrentTeams.initialTeams))).
Proof.
  apply (loaded_sides_disjoint roster (mkRow ["p3"; "p9"]%string ["p1"]%string 7)
           UseCurrentTeams.initialTeams).
  - simpl. repeat constructor; simpl; intuition discriminate.
  - simpl. intros i [<-|[<-|[]]] [E|[]]; discriminate.
Defined.

End SharedTeamsFacts.
